(** * Nelson peer list and IRI client: a shallow embedding

    The development follows [src/node/peer-list.js] (class [PeerList]) and
    the IRI client (class [IRI], iri.js).  JavaScript numbers that hold
    weights, ratios and ages are modelled by exact rationals ([Q]), so
    rounding is left out, except inside the [weighted] package, where
    rounding decides whether a peer is returned: there the doubles are
    modelled as well ([Double], [Weighted64]), and [getWeightedWith] takes
    the package as a parameter.  Integers that may be [NaN] (parsed ports)
    are modelled by the type [Js.num]; strings by [string].  Peer objects and arrays of peers
    live in a store and are named by references, so that the in-place
    mutations of the source ([splice], [push], [update]) are seen through
    every alias.  A promise is run to completion: one call of a method is
    one step. *)

From Stdlib Require Import Bool Arith ZArith QArith Qminmax Lia List Ascii String.
From Stdlib Require Import Permutation Lqa SpecFloat.
Import ListNotations.

Close Scope Q_scope.
Open Scope string_scope.

(** ** JavaScript primitives used by the source *)

Module Js.

(** [s.startsWith(p)], the test behind [indexOf] and [replace]. *)
Fixpoint startsWith (p s : string) : bool :=
  match p, s with
  | EmptyString, _ => true
  | String a p', String b s' => Ascii.eqb a b && startsWith p' s'
  | String _ _, EmptyString => false
  end.

Fixpoint drop (n : nat) (s : string) : string :=
  match n, s with
  | O, _ => s
  | S n', String _ s' => drop n' s'
  | S _, EmptyString => EmptyString
  end.

(** [s.includes(p)]. *)
Fixpoint includes (p s : string) : bool :=
  startsWith p s ||
  match s with
  | EmptyString => false
  | String _ s' => includes p s'
  end.

(** [s.replace(p, r)] for a string pattern [p] and a replacement [r] without
    [$] patterns: the first occurrence of [p] is replaced, nothing else. *)
Fixpoint replace (p r s : string) : string :=
  if startsWith p s then r ++ drop (String.length p) s
  else match s with
       | EmptyString => EmptyString
       | String c s' => String c (replace p r s')
       end.

(** [s.split(sep)[0]] for a one-character separator: the text before the
    first separator, or all of [s] when there is none. *)
Fixpoint splitHead (sep : ascii) (s : string) : string :=
  match s with
  | EmptyString => EmptyString
  | String c s' => if Ascii.eqb c sep then EmptyString else String c (splitHead sep s')
  end.

(** A JavaScript number that holds an integer or [NaN]. *)
Inductive num : Type :=
| NaN : num
| Int : Z -> num.

(** [a === b] on numbers: [NaN] is not equal to anything, itself included. *)
Definition strictEq (a b : num) : bool :=
  match a, b with
  | Int x, Int y => Z.eqb x y
  | _, _ => false
  end.

(** Truthiness of a number: [0] and [NaN] are falsy. *)
Definition truthyNum (a : num) : bool :=
  match a with
  | Int x => negb (Z.eqb x 0)
  | NaN => false
  end.

(** The values a port argument can take: [@param {string|number}], or
    [undefined] when the caller leaves it out. *)
Inductive value : Type :=
| VUndefined : value
| VNum : num -> value
| VStr : string -> value.

Definition truthy (v : value) : bool :=
  match v with
  | VUndefined => false
  | VNum n => truthyNum n
  | VStr s => negb (String.eqb s "")
  end.

(** [a || b]. *)
Definition orElse (a b : value) : value := if truthy a then a else b.

Definition isWhite (c : ascii) : bool :=
  let n := nat_of_ascii c in
  (Nat.eqb n 32 || (Nat.leb 9 n && Nat.leb n 13))%bool.

Fixpoint trimStart (s : string) : string :=
  match s with
  | String c s' => if isWhite c then trimStart s' else s
  | EmptyString => s
  end.

(** The value of [c] as a digit in radix [r], if it is one. *)
Definition digitOf (r : Z) (c : ascii) : option Z :=
  let n := Z.of_nat (nat_of_ascii c) in
  let d := (if (48 <=? n) && (n <=? 57) then Some (n - 48)
            else if (97 <=? n) && (n <=? 122) then Some (n - 87)
            else if (65 <=? n) && (n <=? 90) then Some (n - 55)
            else None)%Z in
  match d with
  | Some v => if (v <? r)%Z then Some v else None
  | None => None
  end.

(** The longest prefix of radix-[r] digits, read left to right; [None] when
    the prefix is empty. *)
Fixpoint digits (r : Z) (acc : option Z) (s : string) : option Z :=
  match s with
  | EmptyString => acc
  | String c s' =>
      match digitOf r c with
      | Some d => digits r (Some (match acc with Some a => a * r + d | None => d end)%Z) s'
      | None => acc
      end
  end.

(** [parseInt(s)] with no radix argument (ECMAScript 18.2.5): leading
    (ASCII) white space and a sign are skipped, [0x] selects radix 16, and
    the result is [NaN] when no digit follows. *)
Definition parseIntStr (s : string) : num :=
  let s1 := trimStart s in
  let '(neg, s2) :=
    match s1 with
    | String "-"%char t => (true, t)
    | String "+"%char t => (false, t)
    | _ => (false, s1)
    end in
  let '(radix, s3) :=
    if startsWith "0x" s2 || startsWith "0X" s2 then (16%Z, drop 2 s2) else (10%Z, s2) in
  match digits radix None s3 with
  | Some v => Int (if neg then (- v)%Z else v)
  | None => NaN
  end.

(** [parseInt(v)]: the argument is converted to a string first, so
    [undefined] and [NaN] give [NaN] and an integer gives itself. *)
Definition parseInt (v : value) : num :=
  match v with
  | VUndefined => NaN
  | VNum n => n
  | VStr s => parseIntStr s
  end.

End Js.

(** ** Regular expressions, as the [ip] package uses them *)

Module Regex.

(** The fragment the patterns need: character classes, concatenation,
    alternation, and [.*] for a pattern that is not anchored at its end. *)
Inductive re : Type :=
| Eps : re
| Cls : (ascii -> bool) -> re
| Cat : re -> re -> re
| Alt : re -> re -> re
| Rest : re.

(** Some suffix of [s], [s] included, satisfies [k]. *)
Fixpoint anySuffix (k : string -> bool) (s : string) : bool :=
  if k s then true
  else match s with
       | EmptyString => false
       | String _ s' => anySuffix k s'
       end.

(** Backtracking matcher: [r] matches a prefix of [s] and the continuation
    [k] accepts what is left. *)
Fixpoint run (r : re) (s : string) (k : string -> bool) : bool :=
  match r with
  | Eps => k s
  | Cls p =>
      match s with
      | String c s' => if p c then k s' else false
      | EmptyString => false
      end
  | Cat a b => run a s (fun s' => run b s' k)
  | Alt a b => if run a s k then true else run b s k
  | Rest => anySuffix k s
  end.

Definition atEnd (s : string) : bool :=
  match s with
  | EmptyString => true
  | String _ _ => false
  end.

(** [/^r$/.test(s)]. *)
Definition test (r : re) (s : string) : bool := run r s atEnd.

(** [r?], greedy as in JavaScript. *)
Definition opt (r : re) : re := Alt r Eps.

Fixpoint times (n : nat) (r : re) : re :=
  match n with
  | O => Eps
  | S n' => Cat r (times n' r)
  end.

Fixpoint upto (n : nat) (r : re) : re :=
  match n with
  | O => Eps
  | S n' => opt (Cat r (upto n' r))
  end.

(** [r{m,m+k}]. *)
Definition rep (m k : nat) (r : re) : re := Cat (times m r) (upto k r).

Definition chr (c : ascii) : re := Cls (Ascii.eqb c).

Fixpoint lit (s : string) : re :=
  match s with
  | EmptyString => Eps
  | String c s' => Cat (chr c) (lit s')
  end.

Definition between (lo hi : nat) (c : ascii) : bool :=
  Nat.leb lo (nat_of_ascii c) && Nat.leb (nat_of_ascii c) hi.

(** [\d] and [[0-9]]. *)
Definition digit : re := Cls (between 48 57).

(** [[0-9a-f]] under the [i] flag. *)
Definition hex : re :=
  Cls (fun c => between 48 57 c || between 97 102 c || between 65 70 c).

End Regex.

(** ** The [ip] package: the three predicates [cleanAddress] calls

    [require('ip')] is a dependency of the program; its predicates are
    regular-expression tests (lib/ip.js), written out here. *)

Module Ip.
Import Regex.

(** [\d{1,3}]. *)
Definition d13 : re := rep 1 2 digit.

Definition dot : re := chr ".".
Definition colon : re := chr ":".

(** A character under the [i] flag. *)
Definition ci (lower upper : ascii) : re :=
  Cls (fun c => Ascii.eqb c lower || Ascii.eqb c upper).

(** [/^(\d{1,3}\.){3,3}\d{1,3}$/]. *)
Definition ipv4Regex : re := Cat (times 3 (Cat d13 dot)) d13.

(** [/^(::)?(((\d{1,3}\.){3}(\d{1,3}){1})?([0-9a-f]){0,4}:{0,2}){1,8}(::)?$/i]. *)
Definition ipv6Regex : re :=
  let group := Cat (opt (Cat (times 3 (Cat d13 dot)) (times 1 d13)))
                   (Cat (upto 4 hex) (upto 2 colon)) in
  Cat (opt (lit "::")) (Cat (rep 1 7 group) (opt (lit "::"))).

Definition isV4Format (s : string) : bool := test ipv4Regex s.
Definition isV6Format (s : string) : bool := test ipv6Regex s.

(** [(::f{4}:)?] under the [i] flag. *)
Definition mapped : re :=
  opt (Cat (lit "::") (Cat (times 4 (ci "f" "F")) colon)).

Definition privateRegexes : list re :=
  [ (* /^(::f{4}:)?10\.([0-9]{1,3})\.([0-9]{1,3})\.([0-9]{1,3})$/i *)
    Cat mapped (Cat (lit "10.") (Cat d13 (Cat dot (Cat d13 (Cat dot d13)))));
    (* /^(::f{4}:)?192\.168\.([0-9]{1,3})\.([0-9]{1,3})$/i *)
    Cat mapped (Cat (lit "192.168.") (Cat d13 (Cat dot d13)));
    (* /^(::f{4}:)?172\.(1[6-9]|2\d|30|31)\.([0-9]{1,3})\.([0-9]{1,3})$/i *)
    Cat mapped
      (Cat (lit "172.")
         (Cat (Alt (Cat (chr "1") (Cls (between 54 57)))
                 (Alt (Cat (chr "2") digit) (Alt (lit "30") (lit "31"))))
            (Cat dot (Cat d13 (Cat dot d13)))));
    (* /^(::f{4}:)?127\.([0-9]{1,3})\.([0-9]{1,3})\.([0-9]{1,3})$/i *)
    Cat mapped (Cat (lit "127.") (Cat d13 (Cat dot (Cat d13 (Cat dot d13)))));
    (* /^(::f{4}:)?169\.254\.([0-9]{1,3})\.([0-9]{1,3})$/i *)
    Cat mapped (Cat (lit "169.254.") (Cat d13 (Cat dot d13)));
    (* /^f[cd][0-9a-f]{2}:/i *)
    Cat (ci "f" "F")
      (Cat (Cls (fun c => Ascii.eqb c "c" || Ascii.eqb c "C" || Ascii.eqb c "d" || Ascii.eqb c "D"))
         (Cat (times 2 hex) (Cat colon Rest)));
    (* /^fe80:/i *)
    Cat (ci "f" "F") (Cat (ci "e" "E") (Cat (lit "80:") Rest));
    (* /^::1$/ *)
    lit "::1";
    (* /^::$/ *)
    lit "::" ].

(** [ip.isPrivate(addr)]: one of the nine patterns matches. *)
Definition isPrivate (s : string) : bool :=
  existsb (fun r => test r s) privateRegexes.

End Ip.

(** ** [PeerList.cleanAddress] *)

(** [static cleanAddress (address)], peer-list.js. *)
Definition cleanAddress (address : string) : string :=
  if negb (Ip.isV4Format address) && negb (Ip.isV6Format address) then address
  else if Ip.isPrivate address then "localhost"
       else Js.replace "::ffff:" "" address.

Arguments Ip.isV4Format : simpl never.
Arguments Ip.isV6Format : simpl never.
Arguments Ip.isPrivate : simpl never.
Arguments cleanAddress : simpl never.

(** [ip.isV4Format(a) || ip.isV6Format(a)]: the guard of [cleanAddress]
    and of [add] for "the address is an IP literal". *)
Definition isLiteral (address : string) : bool :=
  Ip.isV4Format address || Ip.isV6Format address.

(** The rule as the specification words it: a literal loses a _leading_
    [::ffff:], a private literal becomes [localhost], anything else is
    passed through. *)
Definition stripLeading (p s : string) : string :=
  if Js.startsWith p s then Js.drop (String.length p) s else s.

Definition cleanAddress_spec (address : string) : string :=
  if isLiteral address then
    if Ip.isPrivate address then "localhost" else stripLeading "::ffff:" address
  else address.


(** ** The [weighted] package: selection by cumulative weight

    [weighted(set, weights)] draws [key = rand() * total] and walks the
    weights, subtracting each one, until the key drops below zero; it throws
    (here [None]) when the lengths differ or no index is reached.  In this
    module the sum and the subtractions are exact; [Weighted64] below has
    them in doubles. *)

Module Weighted.

Definition total (weights : list Q) : Q := fold_left Qplus weights 0%Q.

Fixpoint walk {A : Type} (set : list A) (weights : list Q) (key : Q) : option A :=
  match set, weights with
  | x :: set', w :: weights' =>
      let key' := (key - w)%Q in
      if negb (Qle_bool 0 key') then Some x else walk set' weights' key'
  | _, _ => None
  end.

Definition select {A : Type} (set : list A) (weights : list Q) (rand : Q) : option A :=
  if Nat.eqb (List.length set) (List.length weights)
  then walk set weights (rand * total weights)%Q
  else None.

End Weighted.

(** ** The same package in double precision

    JavaScript numbers are IEEE 754 doubles: 53 bits of precision, rounding
    to the nearest, ties to even. *)

Module Double.

Definition prec : Z := 53.
Definition emax : Z := 1024.

Definition double : Type := spec_float.

(** The double nearest to an integer. *)
Definition ofZ (z : Z) : double := binary_normalize prec emax z 0 false.

Definition zero : double := ofZ 0.

Definition add : double -> double -> double := SFadd prec emax.
Definition sub : double -> double -> double := SFsub prec emax.
Definition mul : double -> double -> double := SFmul prec emax.
Definition div : double -> double -> double := SFdiv prec emax.

(** [a < b], false when one of them is [NaN]. *)
Definition ltb : double -> double -> bool := SFltb.

(** The double [n / d] for a rational that is [n / d] in lowest terms: the
    rational itself when it is a double and [n] and [d] are below [2^53]. *)
Definition ofQ (q : Q) : double :=
  let q' := Qred q in
  div (ofZ (Qnum q')) (ofZ (Zpos (Qden q'))).

End Double.

(** [weighted(set, weights)] with its sum, its product and its
    subtractions in doubles. *)
Module Weighted64.

(** [weights.reduce((prev, curr) => prev + curr, 0)]. *)
Definition total (weights : list Double.double) : Double.double :=
  fold_left Double.add weights Double.zero.

(** [key -= weights[index]; if (key < 0) return set[index]], index after
    index; the loop over, the package throws. *)
Fixpoint walk {A : Type} (set : list A) (weights : list Double.double) (key : Double.double)
    : option A :=
  match set, weights with
  | x :: set', w :: weights' =>
      let key' := Double.sub key w in
      if Double.ltb key' Double.zero then Some x else walk set' weights' key'
  | _, _ => None
  end.

Definition select {A : Type} (set : list A) (weights : list Double.double)
    (rand : Double.double) : option A :=
  if Nat.eqb (List.length set) (List.length weights)
  then walk set weights (Double.mul rand (total weights))
  else None.

End Weighted64.

(** ** Peers and the state of a [PeerList] *)

(** Modelled from the spec: the fields of a [Peer] ([peer.js] is not among
    the sources), a new peer having [connected = 0], [tried = 0] and no
    [dateLastConnected], and [isTrusted()] returning the stored bit.
    [weight] is a float in the source and a rational here, dates are
    milliseconds since the epoch, and [null] is [None]. *)
Record PeerData : Type := {
  hostname : string;
  ip : option string;
  port : Js.num;
  TCPPort : Js.num;
  UDPPort : Js.num;
  isTrusted : bool;
  weight : Q;
  dateCreated : Z;
  dateLastConnected : option Z;
  connected : Z;
  tried : Z
}.

(** The object passed to [update]: the fields it names. *)
Record Patch : Type := {
  set_hostname : option string;
  set_ip : option (option string);
  set_port : option Js.num;
  set_TCPPort : option Js.num;
  set_UDPPort : option Js.num;
  set_isTrusted : option bool;
  set_weight : option Q;
  set_dateCreated : option Z;
  set_dateLastConnected : option (option Z);
  set_connected : option Z;
  set_tried : option Z
}.

Definition orKeep {A : Type} (new : option A) (old : A) : A :=
  match new with
  | Some v => v
  | None => old
  end.

(** [{ ...peer.data, ...data }]. *)
Definition merge (d : PeerData) (p : Patch) : PeerData :=
  {| hostname := orKeep (set_hostname p) (hostname d);
     ip := orKeep (set_ip p) (ip d);
     port := orKeep (set_port p) (port d);
     TCPPort := orKeep (set_TCPPort p) (TCPPort d);
     UDPPort := orKeep (set_UDPPort p) (UDPPort d);
     isTrusted := orKeep (set_isTrusted p) (isTrusted d);
     weight := orKeep (set_weight p) (weight d);
     dateCreated := orKeep (set_dateCreated p) (dateCreated d);
     dateLastConnected := orKeep (set_dateLastConnected p) (dateLastConnected d);
     connected := orKeep (set_connected p) (connected d);
     tried := orKeep (set_tried p) (tried d) |}.

(** A [Peer] instance is known by its reference, an array of peers by its
    address: two names for one object see each other's mutations. *)
Definition ref := nat.
Definition addr := nat.

Record State : Type := {
  objs : ref -> PeerData;      (* the [data] of every Peer instance *)
  nextObj : ref;               (* references below it are in use *)
  arrs : addr -> list ref;     (* the contents of every array of peers *)
  nextArr : addr;              (* addresses below it are in use *)
  peers : addr                 (* [this.peers] *)
}.

Record Options : Type := {
  isMaster : bool;
  multiPort : bool
}.

(** [DEFAULT_OPTIONS] of peer-list.js. *)
Definition DEFAULT_OPTIONS : Options := {| isMaster := false; multiPort := false |}.

(** [DEFAULT_OPTIONS.TCPPort] and [.UDPPort] of iri.js. *)
Definition DEFAULT_TCPPort : Z := 15600.
Definition DEFAULT_UDPPort : Z := 14600.

Definition CONNECTION_WEIGHT_MULTIPLIER : Q := 1.
Definition MAX_WEIGHT : Q := 4000000.

Definition upd {A : Type} (f : nat -> A) (k : nat) (v : A) : nat -> A :=
  fun k' => if Nat.eqb k' k then v else f k'.

Definition setObj (r : ref) (d : PeerData) (s : State) : State :=
  {| objs := upd (objs s) r d; nextObj := nextObj s;
     arrs := arrs s; nextArr := nextArr s; peers := peers s |}.

Definition setArr (a : addr) (l : list ref) (s : State) : State :=
  {| objs := objs s; nextObj := nextObj s;
     arrs := upd (arrs s) a l; nextArr := nextArr s; peers := peers s |}.

(** [new Peer(data)]. *)
Definition newPeer (d : PeerData) (s : State) : ref * State :=
  (nextObj s,
   {| objs := upd (objs s) (nextObj s) d; nextObj := S (nextObj s);
      arrs := arrs s; nextArr := nextArr s; peers := peers s |}).

(** A new array with the contents [l]. *)
Definition newArray (l : list ref) (s : State) : addr * State :=
  (nextArr s,
   {| objs := objs s; nextObj := nextObj s;
      arrs := upd (arrs s) (nextArr s) l; nextArr := S (nextArr s); peers := peers s |}).

(** [all ()]: the array [this.peers] itself. *)
Definition all (s : State) : list ref := arrs s (peers s).

(** What the store holds at a reference that is not in use. *)
Definition emptyData : PeerData :=
  {| hostname := ""; ip := None; port := Js.NaN; TCPPort := Js.NaN; UDPPort := Js.NaN;
     isTrusted := false; weight := 0; dateCreated := 0; dateLastConnected := None;
     connected := 0; tried := 0 |}.

(** A [PeerList] fresh from its constructor: [this.peers = []]. *)
Definition initial : State :=
  {| objs := fun _ => emptyData; nextObj := 0;
     arrs := fun _ => []; nextArr := 1; peers := 0 |}.

(** ** Array primitives *)

(** [l.indexOf(x)] on an array of references: [-1] when [x] is absent. *)
Fixpoint indexFrom (i : Z) (x : ref) (l : list ref) : Z :=
  match l with
  | [] => (-1)%Z
  | y :: l' => if Nat.eqb y x then i else indexFrom (i + 1)%Z x l'
  end.

Definition indexOf (x : ref) (l : list ref) : Z := indexFrom 0%Z x l.

(** [l.splice(start, 1)]: a negative [start] counts from the end, the result
    is the pair of the removed elements and of what [l] holds afterwards. *)
Definition splice {A : Type} (start : Z) (l : list A) : list A * list A :=
  let len := Z.of_nat (List.length l) in
  let i := Z.to_nat (if (start <? 0)%Z then Z.max (len + start) 0 else Z.min start len) in
  (firstn 1 (skipn i l), (firstn i l ++ skipn (S i) l)%list).

(** [s.split(sep)] for a one-character separator. *)
Fixpoint split (sep : ascii) (s : string) : list string :=
  match s with
  | EmptyString => [EmptyString]
  | String c s' =>
      if Ascii.eqb c sep then EmptyString :: split sep s'
      else match split sep s' with
           | t :: ts => String c t :: ts
           | [] => [String c EmptyString]
           end
  end.

(** [tokens[i]]. *)
Definition token (tokens : list string) (i : nat) : Js.value :=
  match nth_error tokens i with
  | Some t => Js.VStr t
  | None => Js.VUndefined
  end.

(** The first three statements of [add]:
    [port = parseInt(port)],
    [TCPPort = parseInt(TCPPort || DEFAULT_IRI_OPTIONS.TCPPort)],
    [UDPPort = parseInt(UDPPort || DEFAULT_IRI_OPTIONS.UDPPort)]. *)
Definition parsedPort (port' : Js.value) : Js.num := Js.parseInt port'.

Definition parsedTCPPort (TCPPort' : Js.value) : Js.num :=
  Js.parseInt (Js.orElse TCPPort' (Js.VNum (Js.Int DEFAULT_TCPPort))).

Definition parsedUDPPort (UDPPort' : Js.value) : Js.num :=
  Js.parseInt (Js.orElse UDPPort' (Js.VNum (Js.Int DEFAULT_UDPPort))).

(** ** [class PeerList] *)

Section PeerList.

(** [this.opts]. *)
Variable opts : Options.

(** [dns.resolve(addr, 'A', cb)]: the records found, or [None] for an error. *)
Variable resolveA : string -> option (list string).

(** [getSecondsPassed(date)] of tools/utils, which is not among the sources:
    the age of [date] at the [t]-th reading of the clock within a call. *)
Variable getSecondsPassed : nat -> Z -> Q.

(** [Math.random()], as the [weighted] package calls it: the [x]-th draw. *)
Variable random : nat -> Q.

(** [update (peer, data)]: the merged data replaces the peer's; the write to
    the document store that follows is outside this model. *)
Definition update (s : State) (peer : ref) (data : Patch) : State :=
  setObj peer (merge (objs s peer) data) s.

(** [markConnected (peer, increaseWeight)] at the time [now]. *)
Definition markConnected (s : State) (peer : ref) (increaseWeight : bool) (now : Z) : State :=
  let d := objs s peer in
  update s peer
    {| set_hostname := None; set_ip := None; set_port := None; set_TCPPort := None;
       set_UDPPort := None; set_isTrusted := None;
       set_weight :=
         Some (Qmin (weight d * (if increaseWeight then CONNECTION_WEIGHT_MULTIPLIER else 1))%Q
                    MAX_WEIGHT);
       set_dateCreated := None;
       set_dateLastConnected := Some (Some now);
       set_connected := Some (connected d + 1)%Z;
       set_tried := Some 0%Z |}.

(** [clear ()]: [this.peers = []], a new array. *)
Definition clear (s : State) : State :=
  let '(a, s1) := newArray [] s in
  {| objs := objs s1; nextObj := nextObj s1;
     arrs := arrs s1; nextArr := nextArr s1; peers := a |}.

Definition truthyStr (x : string) : bool := negb (String.eqb x "").

(** The filter of [findWithIP]:
    [hostname === addr || hostname === address ||
     ip && (hostname === ip || p.data.ip === ip)]. *)
Definition sameAddress (s : State) (addr address : string) (ip' : option string) (p : ref) : bool :=
  let d := objs s p in
  String.eqb (hostname d) addr || String.eqb (hostname d) address ||
  match ip' with
  | Some i =>
      truthyStr i &&
      (String.eqb (hostname d) i ||
       match ip d with
       | Some j => String.eqb j i
       | None => false
       end)
  | None => false
  end.

Definition findWithIP (s : State) (addr address : string) (port' : Js.num)
    (ip' : option string) : list ref :=
  let found := filter (sameAddress s addr address ip') (all s) in
  if multiPort opts
  then filter (fun p => Js.strictEq (port (objs s p)) port') found
  else found.

(** [findByAddress (address, port)], with the promise run to completion. *)
Definition findByAddress (s : State) (address : string) (port' : Js.num) : list ref :=
  let addr := cleanAddress address in
  if Ip.isV6Format addr || Ip.isV4Format addr || multiPort opts
  then findWithIP s addr address port' (Some addr)
  else findWithIP s addr address port'
         match resolveA addr with
         | Some (first :: _) => Some first
         | _ => None
         end.

(** [getPeerWeight (peer)], the clock being read for the [t]-th time. *)
Definition getPeerWeight (s : State) (t : nat) (peer : ref) : Q :=
  let d := objs s peer in
  if isMaster opts then
    let weightedAge :=
      (inject_Z (orKeep (dateLastConnected d) (dateCreated d) - dateCreated d) / 1000)%Q in
    Qmax weightedAge 1
  else
    let weightedAge := (getSecondsPassed t (dateCreated d) * weight d)%Q in
    Qmax weightedAge 1.

(** The locals of [getWeighted] that [getChoice] mutates, with the state
    that holds the array [peers]. *)
Record Draw : Type := {
  st : State;
  allWeights : list Q;
  choices : list (ref * option Q)
}.

(** [getChoice ()] in the [x]-th turn of the loop; [peers] is the array at
    [a].  A ratio is [None] when [weightsArray[0]] is [undefined]. *)
Definition getChoice (a : addr) (weightsMax : Q) (x : nat) (d : Draw) : option Draw :=
  let s := st d in
  let peers := arrs s a in
  match Weighted.select peers (map (getPeerWeight s (S x)) peers) (random x) with
  | None => None
  | Some peer =>
      let s1 := setArr a (snd (splice (indexOf peer peers) peers)) s in
      let '(weightsArray, rest) := splice (indexOf peer (arrs s1 a)) (allWeights d) in
      Some {| st := s1;
              allWeights := rest;
              choices := (choices d ++
                          [(peer, option_map (fun w => w / weightsMax)%Q (hd_error weightsArray))])%list |}
  end.

(** [for (let x = 0; x < amount; x++) { getChoice(); if (peers.length < 1) break; }]
    with [n] turns left. *)
Fixpoint drawLoop (a : addr) (weightsMax : Q) (n x : nat) (d : Draw) : option Draw :=
  match n with
  | O => Some d
  | S n' =>
      match getChoice a weightsMax x d with
      | None => None
      | Some d' =>
          if Nat.ltb (List.length (arrs (st d') a)) 1 then Some d'
          else drawLoop a weightsMax n' (S x) d'
      end
  end.

(** [getWeighted (amount, sourcePeers)]; [None] when [weighted] throws.
    The filter [c && c[0]] keeps every choice, a choice being an array that
    holds a Peer. *)
Definition getWeighted (s : State) (amount : nat) (sourcePeers : option addr)
    : option (list (ref * option Q) * State) :=
  let amount := if Nat.eqb amount 0 then List.length (all s) else amount in
  let '(a, s0) :=
    match sourcePeers with
    | Some src => (src, s)
    | None => newArray (all s) s
    end in
  match map (getPeerWeight s0 0) (arrs s0 a) with
  | [] => Some ([], s0)
  | w :: ws =>
      let weightsMax := fold_left Qmax ws w in
      match drawLoop a weightsMax amount 0 {| st := s0; allWeights := w :: ws; choices := [] |} with
      | None => None
      | Some d =>
          Some (map (fun c => (fst c, if isTrusted (objs (st d) (fst c)) then Some 1%Q else snd c))
                    (choices d),
                st d)
      end
  end.

(** The callback of [add], run on what [findByAddress] found. *)
Definition addThen (s : State) (found : list ref) (hostname' : string)
    (port' TCPPort' UDPPort' : Js.num) (isTrusted' : bool) (weight' : Q) (now : Z)
    : ref * State :=
  let addr := cleanAddress hostname' in
  match found with
  | existing :: _ =>
      let e := objs s existing in
      if negb (multiPort opts) &&
         (negb (Js.strictEq port' (port e)) ||
          (Js.truthyNum TCPPort' && negb (Js.strictEq TCPPort' (TCPPort e))) ||
          (Js.truthyNum UDPPort' && negb (Js.strictEq UDPPort' (UDPPort e))))
      then (existing,
            update s existing
              {| set_hostname := None; set_ip := None; set_port := Some port';
                 set_TCPPort := Some TCPPort'; set_UDPPort := Some UDPPort';
                 set_isTrusted := None; set_weight := None; set_dateCreated := None;
                 set_dateLastConnected := None; set_connected := None; set_tried := None |})
      else if negb (Qle_bool weight' (weight e))
      then (existing,
            update s existing
              {| set_hostname := None; set_ip := None; set_port := None;
                 set_TCPPort := None; set_UDPPort := None;
                 set_isTrusted := None; set_weight := Some weight'; set_dateCreated := None;
                 set_dateLastConnected := None; set_connected := None; set_tried := None |})
      else (existing, s)
  | [] =>
      let peerIP := if Ip.isV4Format addr || Ip.isV6Format addr then Some addr else None in
      let '(peer, s1) :=
        newPeer
          {| hostname := addr;
             ip := peerIP;
             port := port';
             TCPPort := if Js.truthyNum TCPPort' then TCPPort' else Js.Int DEFAULT_TCPPort;
             UDPPort := if Js.truthyNum UDPPort' then UDPPort' else Js.Int DEFAULT_UDPPort;
             isTrusted := isTrusted';
             weight := weight';
             dateCreated := now;
             dateLastConnected := None;
             connected := 0;
             tried := 0 |} s in
      (peer, setArr (peers s1) (all s1 ++ [peer])%list s1)
  end.

(** [add (hostname, port, TCPPort, UDPPort, isTrusted, weight)] at the time
    [now], with its promise run to completion: the created or existing
    peer and the state afterwards. *)
Definition add (s : State) (hostname' : string) (port' TCPPort' UDPPort' : Js.value)
    (isTrusted' : bool) (weight' : Q) (now : Z) : ref * State :=
  let port1 := parsedPort port' in
  let TCPPort1 := parsedTCPPort TCPPort' in
  let UDPPort1 := parsedUDPPort UDPPort' in
  addThen s (findByAddress s hostname' port1) hostname' port1 TCPPort1 UDPPort1
    isTrusted' weight' now.

(** [loadDefaults (defaultPeerURLs)].  The source starts the adds together
    and waits for all of them; here each one is run to completion before
    the next, in the order of the list. *)
Fixpoint loadDefaults (s : State) (defaultPeerURLs : list string) (now : Z) : State :=
  match defaultPeerURLs with
  | [] => s
  | uri :: uris =>
      let tokens := split "/" uri in
      let s1 := snd (add s (hd "" tokens) (token tokens 1) (token tokens 2) (token tokens 3)
                       true 1%Q now) in
      loadDefaults s1 uris now
  end.

(** [this.peers = docs.map((data) => new Peer(data))]. *)
Fixpoint newPeers (docs : list PeerData) (s : State) : list ref * State :=
  match docs with
  | [] => ([], s)
  | d :: docs' =>
      let '(p, s1) := newPeer d s in
      let '(ps, s2) := newPeers docs' s1 in
      (p :: ps, s2)
  end.

(** [load (defaultPeerURLs)], the store answering [find({})] with [docs]. *)
Definition load (s : State) (docs : list PeerData) (defaultPeerURLs : list string) (now : Z)
    : State :=
  let '(ps, s1) := newPeers docs s in
  let '(a, s2) := newArray ps s1 in
  loadDefaults
    {| objs := objs s2; nextObj := nextObj s2;
       arrs := arrs s2; nextArr := nextArr s2; peers := a |}
    defaultPeerURLs now.

End PeerList.

(** ** [getWeighted], whatever the [weighted] package answers *)

Section Selection.

Variable opts : Options.
Variable getSecondsPassed : nat -> Z -> Q.

(** [weighted(set, weights)] at its [x]-th call from [getWeighted]: the
    element it returns, [None] when it throws. *)
Variable weighted : nat -> list ref -> list Q -> option ref.

(** [getChoice ()] in the [x]-th turn of the loop. *)
Definition getChoiceWith (a : addr) (weightsMax : Q) (x : nat) (d : Draw) : option Draw :=
  let s := st d in
  let peers := arrs s a in
  match weighted x peers (map (getPeerWeight opts getSecondsPassed s (S x)) peers) with
  | None => None
  | Some peer =>
      let s1 := setArr a (snd (splice (indexOf peer peers) peers)) s in
      let '(weightsArray, rest) := splice (indexOf peer (arrs s1 a)) (allWeights d) in
      Some {| st := s1;
              allWeights := rest;
              choices := (choices d ++
                          [(peer, option_map (fun w => w / weightsMax)%Q (hd_error weightsArray))])%list |}
  end.

Fixpoint drawLoopWith (a : addr) (weightsMax : Q) (n x : nat) (d : Draw) : option Draw :=
  match n with
  | O => Some d
  | S n' =>
      match getChoiceWith a weightsMax x d with
      | None => None
      | Some d' =>
          if Nat.ltb (List.length (arrs (st d') a)) 1 then Some d'
          else drawLoopWith a weightsMax n' (S x) d'
      end
  end.

(** [getWeighted (amount, sourcePeers)]; [None] when [weighted] throws. *)
Definition getWeightedWith (s : State) (amount : nat) (sourcePeers : option addr)
    : option (list (ref * option Q) * State) :=
  let amount := if Nat.eqb amount 0 then List.length (all s) else amount in
  let '(a, s0) :=
    match sourcePeers with
    | Some src => (src, s)
    | None => newArray (all s) s
    end in
  match map (getPeerWeight opts getSecondsPassed s0 0) (arrs s0 a) with
  | [] => Some ([], s0)
  | w :: ws =>
      let weightsMax := fold_left Qmax ws w in
      match drawLoopWith a weightsMax amount 0
              {| st := s0; allWeights := w :: ws; choices := [] |} with
      | None => None
      | Some d =>
          Some (map (fun c => (fst c, if isTrusted (objs (st d) (fst c)) then Some 1%Q else snd c))
                    (choices d),
                st d)
      end
  end.

End Selection.

(** The package computing in exact rationals, [Math.random()] giving
    [random x] at the [x]-th call. *)
Definition weightedExact (random : nat -> Q) (x : nat) (set : list ref) (weights : list Q)
    : option ref :=
  Weighted.select set weights (random x).

(** The package computing in doubles, as it does.  The weights, rationals
    in this development, are turned into doubles on the way in: nothing is
    lost when they are doubles already, as in the inputs this is run on. *)
Definition weightedDouble (random : nat -> Double.double) (x : nat) (set : list ref)
    (weights : list Q) : option ref :=
  Weighted64.select set (map Double.ofQ weights) (random x).

(** What the package returns is an element of the set it was given. *)
Definition members (weighted : nat -> list ref -> list Q -> option ref) : Prop :=
  forall x set weights p, weighted x set weights = Some p -> In p set.

(** The package throws at some call, although it is given a set that is not
    empty and as many weights, each of at least one. *)
Definition throws (weighted : nat -> list ref -> list Q -> option ref) : Prop :=
  exists x set weights,
    set <> [] /\ List.length weights = List.length set /\
    Forall (fun w => (1 <= w)%Q) weights /\
    weighted x set weights = None.

(** What [findByAddress] keeps of the answer of [dns.resolve]:
    [error || !results.length ? null : results[0]]. *)
Definition firstRecord (resolveA : string -> option (list string)) (addr : string)
    : option string :=
  match resolveA addr with
  | Some (first :: _) => Some first
  | _ => None
  end.

(** Two calls of [findByAddress] for [address] get the same from DNS: none
    of them asks, the cleaned address being an IP literal or [multiPort]
    being set, or [dns.resolve] gives both the same first record. *)
Definition sameLookup (opts : Options) (resolveA resolveA' : string -> option (list string))
    (address : string) : Prop :=
  isLiteral (cleanAddress address) = true \/
  multiPort opts = true \/
  firstRecord resolveA' (cleanAddress address) = firstRecord resolveA (cleanAddress address).

(** ** [class IRI]: the static neighbors and [removeAllNeighbors] *)

Module IRI.

(** An entry of the answer to [getNeighbors]:
    [{ address: "host:port", connectionType: "tcp" | "udp" }]. *)
Record Neighbor : Type := {
  address : string;
  connectionType : string
}.

Record State : Type := {
  _isStarted : bool;
  isHealthy : bool;
  staticNeighbors : list (option string)
}.

(** What a call leaves behind: a rejected promise, a promise resolved
    without any request, or the URIs handed to [api.removeNeighbors]. *)
Inductive Outcome : Type :=
| Rejected : Outcome
| Resolved : Outcome
| RemoveNeighbors : list string -> Outcome.

(** The state the constructor builds. *)
Definition created : State :=
  {| _isStarted := false; isHealthy := false; staticNeighbors := [] |}.

Definition isStarted (iri : State) : bool := _isStarted iri.
Definition isAvailable (iri : State) : bool := isStarted iri && isHealthy iri.

(** [this.staticNeighbors.includes(x)]. *)
Definition includes (l : list (option string)) (x : string) : bool :=
  existsb (fun n => match n with
                    | Some y => String.eqb y x
                    | None => false
                    end) l.

(** [`${n.connectionType}://${n.address}`]. *)
Definition uri (n : Neighbor) : string := connectionType n ++ "://" ++ address n.

Section Client.

(** [getIP(host)] of tools/utils, which is not among the sources: the
    address [host] resolves to, [null] when it does not resolve. *)
Variable getIP : string -> option string.

(** [start ()], the successive answers of [getNeighbors] being [answers]
    ([None] for an error, after which the request is repeated): the first
    answer without error fixes the static neighbors. *)
Fixpoint start (iri : State) (answers : list (option (list Neighbor))) : State :=
  match answers with
  | [] => iri
  | None :: later => start iri later
  | Some neighbors :: _ =>
      let addresses := map (fun n => Js.splitHead ":" (address n)) neighbors in
      {| _isStarted := true;
         isHealthy := true;
         staticNeighbors := (map getIP addresses ++ map Some addresses)%list |}
  end.

(** [isStaticNeighbor (peer)]. *)
Definition isStaticNeighbor (iri : State) (peer : PeerData) : bool :=
  negb (Nat.eqb
          (List.length
             (filter (fun n => match n with
                               | Some x =>
                                   match ip peer with
                                   | Some i => String.eqb x i
                                   | None => false
                                   end || String.eqb x (hostname peer)
                               | None =>
                                   match ip peer with
                                   | Some _ => false
                                   | None => true
                                   end
                               end) (staticNeighbors iri))) 0).

(** [removeAllNeighbors ()], [getNeighbors] answering [answer]. *)
Definition removeAllNeighbors (iri : State) (answer : option (list Neighbor)) : Outcome :=
  if negb (isAvailable iri) then Rejected
  else match answer with
       | None => Resolved
       | Some [] => Resolved
       | Some neighbors =>
           let toRemove :=
             filter (fun n => negb (includes (staticNeighbors iri) (address n))) neighbors in
           RemoveNeighbors (map uri toRemove)
       end.

End Client.

(** The neighbor is one of those recorded by [start]: its host, the text of
    its address before the port, is in [staticNeighbors]. *)
Definition isStatic (iri : State) (n : Neighbor) : bool :=
  includes (staticNeighbors iri) (Js.splitHead ":" (address n)).

End IRI.

(** ** Notions used in the statements *)

(** The pool [getWeighted] samples from: the source array when one is
    given, else the peers of the list. *)
Definition poolOf (s : State) (sourcePeers : option addr) : list ref :=
  match sourcePeers with
  | Some src => arrs s src
  | None => all s
  end.

(** What a turn of the sampling loop keeps true, for the array at [a] that
    held [l0] in the state [s0] when the loop began. *)
Definition sampling (a : addr) (s0 : State) (l0 : list ref) (d : Draw) : Prop :=
  objs (st d) = objs s0 /\
  nextObj (st d) = nextObj s0 /\
  peers (st d) = peers s0 /\
  (forall b, b <> a -> arrs (st d) b = arrs s0 b) /\
  List.length (allWeights d) = List.length (arrs (st d) a) /\
  Permutation (map fst (choices d) ++ arrs (st d) a)%list l0.

(** P1 of the specification for one weight and for a whole list. *)
Definition inRange (w : Q) : Prop := (0 <= w <= MAX_WEIGHT)%Q.

Definition bounded (s : State) : Prop :=
  forall p, In p (all s) -> inRange (weight (objs s p)).

(** The references held by the list are in use: [new Peer] will not
    return one of them. *)
Definition allocated (s : State) : Prop :=
  forall p, In p (all s) -> (p < nextObj s)%nat.

(** [this.peers] is an array in use that holds distinct peers, all of
    them in use. *)
Definition wellFormed (s : State) : Prop :=
  NoDup (all s) /\ allocated s /\ (peers s < nextArr s)%nat.

(** The states a [PeerList] goes through: the one its constructor builds
    and those its methods lead to. *)
Inductive reachable (opts : Options) (resolveA : string -> option (list string))
  : State -> Prop :=
| reach_new : reachable opts resolveA initial
| reach_add s h p t u tr w now :
    reachable opts resolveA s ->
    reachable opts resolveA (snd (add opts resolveA s h p t u tr w now))
| reach_update s peer data :
    reachable opts resolveA s -> reachable opts resolveA (update s peer data)
| reach_markConnected s peer increaseWeight now :
    reachable opts resolveA s ->
    reachable opts resolveA (markConnected s peer increaseWeight now)
| reach_clear s :
    reachable opts resolveA s -> reachable opts resolveA (clear s)
| reach_load s docs uris now :
    reachable opts resolveA s -> reachable opts resolveA (load opts resolveA s docs uris now).

(** [Math.max(...allWeights)]; of no weight at all, [getWeighted] takes no
    maximum, having returned before. *)
Definition maxWeight (allWeights : list Q) : Q :=
  match allWeights with
  | [] => 0%Q
  | w :: ws => fold_left Qmax ws w
  end.

(** The weights in [allWeights] are those in [W0] but for the [tail] that
    has been handed out, last weight first, to the choices made so far. *)
Definition fromEnd (W0 : list Q) (weightsMax : Q) (d : Draw) : Prop :=
  exists tail,
    W0 = (allWeights d ++ tail)%list /\
    map snd (choices d) = map (fun w => Some (w / weightsMax)%Q) (rev tail).

(** The pairs of a result with every ratio in lowest terms. *)
Definition reduced (res : list (ref * option Q)) : list (ref * option Q) :=
  map (fun c => (fst c, option_map Qred (snd c))) res.

(** ** Concrete inputs *)

Module Scenario.

(** A resolver that finds no record. *)
Definition noRecord (_ : string) : option (list string) := None.

(** Modelled from the spec: [getSecondsPassed] is [secondsSince(created)],
    here with the clock standing at [now] milliseconds at every reading. *)
Definition secondsSince (now : Z) (_ : nat) (date : Z) : Q :=
  (inject_Z (now - date) / 1000)%Q.

(** Every draw of [Math.random()] gives [0.1]. *)
Definition low (_ : nat) : Q := (1 # 10)%Q.

Definition port16600 : Js.value := Js.VNum (Js.Int 16600).

(** A peer known by the address [host], an IP literal. *)
Definition peerAt (host : string) : PeerData :=
  {| hostname := host; ip := Some host; port := Js.Int 16600;
     TCPPort := Js.Int DEFAULT_TCPPort; UDPPort := Js.Int DEFAULT_UDPPort;
     isTrusted := false; weight := 0; dateCreated := 0; dateLastConnected := None;
     connected := 0; tried := 0 |}.

(** Two peers added at time [0]: [a.example] with weight [2] (reference
    [0]), then [b.example] with weight [1] (reference [1]). *)
Definition twoPeers : State :=
  let s1 := snd (add DEFAULT_OPTIONS noRecord initial "a.example" port16600
                   Js.VUndefined Js.VUndefined false 2%Q 0%Z) in
  snd (add DEFAULT_OPTIONS noRecord s1 "b.example" port16600
         Js.VUndefined Js.VUndefined false 1%Q 0%Z).

(** The same, with an array of the caller that holds both peers, as
    [list.all().filter(...)] would build it. *)
Definition withSource : addr * State := newArray [0; 1]%nat twoPeers.

(** An array of the caller that holds the peer [a.example] twice. *)
Definition withRepeat : addr * State := newArray [0; 0]%nat twoPeers.

(** Every draw of [Math.random()] gives [0.1], as a double. *)
Definition low64 (_ : nat) : Double.double := Double.ofQ (1 # 10).

(** Every draw of [Math.random()] gives [1 - 2^-52], a double below [1]. *)
Definition almostOne (_ : nat) : Double.double :=
  S754_finite false 9007199254740990 (-53).

(** Two peers added at time [0]: [a.example] with the weight
    [1 + 3 * 2^-51] (reference [0]), then [b.example] with the weight
    [4 + 2^-49] (reference [1]); both weights are doubles. *)
Definition tiedPeers : State :=
  let s1 := snd (add DEFAULT_OPTIONS noRecord initial "a.example" port16600
                   Js.VUndefined Js.VUndefined false
                   (2251799813685251 # 2251799813685248)%Q 0%Z) in
  snd (add DEFAULT_OPTIONS noRecord s1 "b.example" port16600
         Js.VUndefined Js.VUndefined false
         (2251799813685249 # 562949953421312)%Q 0%Z).

(** A resolver that answers without error and without any record. *)
Definition emptyAnswer (_ : string) : option (list string) := Some [].

(** A resolver that finds the one record [93.184.216.34] for every name. *)
Definition oneRecord (_ : string) : option (list string) := Some ["93.184.216.34"].

End Scenario.

(** ** More of [class IRI]: the requests to the ledger *)

Module IRICalls.

(** A request made through [this.api]. *)
Inductive Call : Type :=
| GetNeighbors : Call
| RemoveNeighbors : list string -> Call
| AddNeighbors : list string -> Call.

(** How the promise a method returns is settled. *)
Inductive Settled : Type :=
| Rejected : Settled
| Resolved : list PeerData -> Settled.

(** A call of a method: the requests it made, in order, and its promise. *)
Record Run : Type := {
  calls : list Call;
  settled : Settled
}.

(** [end ()]. *)
Definition end_ (iri : IRI.State) : IRI.State :=
  {| IRI._isStarted := false; IRI.isHealthy := false; IRI.staticNeighbors := [] |}.

(** [_tick ()], [getNeighbors] answering [answer]: the state afterwards and
    the arguments given to [onHealthCheck]. *)
Definition _tick (iri : IRI.State) (answer : option (list IRI.Neighbor))
    : IRI.State * (bool * option (list string)) :=
  match answer with
  | None =>
      ({| IRI._isStarted := IRI._isStarted iri; IRI.isHealthy := false;
          IRI.staticNeighbors := IRI.staticNeighbors iri |},
       (false, None))
  | Some neighbors =>
      ({| IRI._isStarted := IRI._isStarted iri; IRI.isHealthy := true;
          IRI.staticNeighbors := IRI.staticNeighbors iri |},
       (true, Some (map (fun n => Js.splitHead ":" (IRI.address n)) neighbors)))
  end.

Section Requests.

(** [peer.getUDPURI()] of peer.js, which is not among the sources. *)
Variable getUDPURI : PeerData -> string.

(** [removeNeighbors (peers)]; [err] tells whether the request fails. *)
Definition removeNeighbors (iri : IRI.State) (peers : list PeerData) (err : bool) : Run :=
  if negb (IRI.isAvailable iri) then {| calls := []; settled := Rejected |}
  else
    let myPeers := filter (fun peer => negb (IRI.isStaticNeighbor iri peer)) peers in
    match peers with
    | [] => {| calls := []; settled := Resolved [] |}
    | _ =>
        {| calls := [RemoveNeighbors (map getUDPURI myPeers)];
           settled := if err then Rejected else Resolved peers |}
    end.

(** [addNeighbors (peers)]; [err] tells whether the request fails. *)
Definition addNeighbors (iri : IRI.State) (peers : list PeerData) (err : bool) : Run :=
  if negb (IRI.isAvailable iri) then {| calls := []; settled := Rejected |}
  else
    {| calls := [AddNeighbors (map getUDPURI peers)];
       settled := if err then Rejected else Resolved peers |}.

(** [updateNeighbors (peers)], [getNeighbors] answering [answer]; the
    outcome of the removal is not looked at, [err] is that of the addition. *)
Definition updateNeighbors (iri : IRI.State) (peers : list PeerData)
    (answer : option (list IRI.Neighbor)) (err : bool) : Run :=
  if negb (IRI.isAvailable iri) then {| calls := []; settled := Rejected |}
  else
    match peers with
    | [] => {| calls := []; settled := Resolved [] |}
    | _ =>
        match answer with
        | None => {| calls := [GetNeighbors]; settled := Rejected |}
        | Some neighbors =>
            let removal :=
              match neighbors with
              | [] => []
              | _ => [RemoveNeighbors (map IRI.uri neighbors)]
              end in
            let addition := addNeighbors iri peers err in
            {| calls := (GetNeighbors :: removal ++ calls addition)%list;
               settled := settled addition |}
        end
    end.

End Requests.

End IRICalls.

(** ** The status API: [getSummary] *)

Module API.




(** [node.list.all().filter((p) => p.data.dateCreated >= since).length]. *)
Definition created (s : State) (since : Z) : nat :=
  List.length (filter (fun p => (since <=? dateCreated (objs s p))%Z) (all s)).



End API.

(** ** Further notions used in the statements *)

(** Every character class of [r] lies within [P], and [r] has no [.*]. *)
Fixpoint classesIn (P : ascii -> Prop) (r : Regex.re) : Prop :=
  match r with
  | Regex.Eps => True
  | Regex.Cls p => forall c, p c = true -> P c
  | Regex.Cat a b => classesIn P a /\ classesIn P b
  | Regex.Alt a b => classesIn P a /\ classesIn P b
  | Regex.Rest => False
  end.

(** Every character of [s] satisfies [P]. *)
Fixpoint allChars (P : ascii -> Prop) (s : string) : Prop :=
  match s with
  | EmptyString => True
  | String c s' => P c /\ allChars P s'
  end.

(** A character of a dotted quad is not a colon. *)
Definition notColon (c : ascii) : Prop := c <> ":"%char.

(** * Properties *)

(** *** Facts about [startsWith], [includes] and [replace] *)



Lemma replace_absent (p r s : string) :
  Js.includes p s = false -> Js.replace p r s = s.
Proof.
  induction s as [|c s IH]; simpl; intros H.
  - apply orb_false_iff in H as [H _]. now rewrite H.
  - apply orb_false_iff in H as [H1 H2]. rewrite H1. f_equal. now apply IH.
Qed.







Lemma allChars_app (P : ascii -> Prop) (s1 s2 : string) :
  allChars P s1 -> allChars P s2 -> allChars P (s1 ++ s2).
Proof.
  induction s1 as [|c s1 IH]; cbn [String.append allChars]; [tauto|].
  intros [Hc H1] H2. split; [exact Hc | now apply IH].
Qed.

(** A match of a pattern whose classes lie within [P] consumes characters
    of [P] only. *)
Lemma run_alphabet (P : ascii -> Prop) (r : Regex.re) :
  classesIn P r ->
  forall s k, Regex.run r s k = true ->
              exists s1 s2, s = s1 ++ s2 /\ allChars P s1 /\ k s2 = true.
Proof.
  induction r as [|p|a IHa b IHb|a IHa b IHb|]; cbn [classesIn Regex.run]; intros Hc s k H.
  - exists "", s. repeat split. exact H.
  - destruct s as [|c s]; [discriminate|]. destruct (p c) eqn:E; [|discriminate].
    exists (String c ""), s. repeat split; [now apply Hc | exact H].
  - destruct Hc as [Ha Hb].
    destruct (IHa Ha s _ H) as (s1 & s2 & -> & H1 & H2).
    destruct (IHb Hb s2 k H2) as (t1 & t2 & -> & H3 & H4).
    exists (s1 ++ t1), t2. split; [|split; [now apply allChars_app | exact H4]].
    clear. induction s1 as [|c s1 IH]; cbn [String.append]; [reflexivity | now rewrite IH].
  - destruct Hc as [Ha Hb]. destruct (Regex.run a s k) eqn:E.
    + now apply IHa.
    + now apply IHb.
  - contradiction.
Qed.

Lemma ipv4Regex_classes : classesIn notColon Ip.ipv4Regex.
Proof.
  assert (Hd : forall c, Regex.between 48 57 c = true -> notColon c).
  { intros c H E. subst c. discriminate H. }
  assert (Hdot : forall c, Ascii.eqb "." c = true -> notColon c).
  { intros c H E. subst c. discriminate H. }
  cbv [Ip.ipv4Regex Ip.d13 Ip.dot Regex.times Regex.rep Regex.upto Regex.opt Regex.digit
       Regex.chr classesIn].
  repeat split; assumption.
Qed.

(** A dotted quad holds no colon, hence no [::ffff:]. *)
Lemma isV4Format_no_prefix (x : string) :
  Ip.isV4Format x = true -> Js.includes "::ffff:" x = false.
Proof.
  intros H. unfold Ip.isV4Format, Regex.test in H.
  destruct (run_alphabet notColon Ip.ipv4Regex ipv4Regex_classes x _ H)
    as (s1 & s2 & -> & Hall & Hend).
  destruct s2; [|discriminate]. clear H Hend.
  assert (E : s1 ++ "" = s1) by (clear; induction s1 as [|c s IH]; cbn; [|rewrite IH]; reflexivity).
  rewrite E. clear E.
  induction s1 as [|c s1 IH]; [reflexivity|].
  destruct Hall as [Hc Hrest]. cbn [Js.includes Js.startsWith].
  destruct (Ascii.eqb_spec ":" c) as [<-|_]; [now elim Hc|].
  cbn [andb orb]. now apply IH.
Qed.

Lemma cleanAddress_localhost : cleanAddress "localhost" = "localhost".
Proof. vm_compute. reflexivity. Qed.


(** *** [cleanAddress] *)




(** C8, on the code: the claim has [cleanAddress] strip a _leading_
    [::ffff:] from a literal.  The v6 literal [1::ffff:2] has none and is
    outside the private ranges, so by the claim it comes back unchanged;
    [address.replace('::ffff:', '')] is not anchored and takes the
    [::ffff:] out of its middle, so the code answers [12].  The two examples
    of the claim hold of the code. *)
Theorem cleanAddress_not_leading :
  isLiteral "1::ffff:2" = true /\
  Ip.isPrivate "1::ffff:2" = false /\
  Js.startsWith "::ffff:" "1::ffff:2" = false /\
  cleanAddress_spec "1::ffff:2" = "1::ffff:2" /\
  cleanAddress "1::ffff:2" = "12" /\
  cleanAddress "1::ffff:2" <> cleanAddress_spec "1::ffff:2" /\
  cleanAddress "::ffff:10.0.0.1" = "localhost" /\
  cleanAddress "example.com" = "example.com".
Proof.
  repeat split; try (vm_compute; reflexivity).
  vm_compute. discriminate.
Qed.




(** *** The IRI client *)

Lemma splitHead_no_colon (s : string) : Js.includes ":" (Js.splitHead ":" s) = false.
Proof.
  induction s as [|c s IH]; [reflexivity|].
  cbn [Js.splitHead]. destruct (Ascii.eqb_spec c ":") as [->|Hc]; [reflexivity|].
  cbn [Js.includes Js.startsWith].
  destruct (Ascii.eqb_spec ":" c) as [<-|_]; [congruence|]. exact IH.
Qed.

(** No entry without a colon equals an address with one. *)
Lemma includes_colon_free (l : list (option string)) (x : string) :
  Forall (fun n => match n with
                   | Some y => Js.includes ":" y = false
                   | None => True
                   end) l ->
  Js.includes ":" x = true ->
  IRI.includes l x = false.
Proof.
  intros Hl Hx. induction Hl as [|n l Hn _ IH]; simpl; [reflexivity|].
  rewrite IH, orb_false_r. destruct n as [y|]; [|reflexivity].
  destruct (String.eqb y x) eqn:E; [|reflexivity].
  apply String.eqb_eq in E. subst y. congruence.
Qed.

(** Whatever [start] recorded, when hosts resolve to dotted addresses the
    filter of [removeAllNeighbors] lets every [host:port] through. *)
Lemma removeAllNeighbors_filter_passes
    (getIP : string -> option string) (answers : list (option (list IRI.Neighbor)))
    (n : IRI.Neighbor) :
  (forall h i, getIP h = Some i -> Js.includes ":" i = false) ->
  Js.includes ":" (IRI.address n) = true ->
  IRI.includes (IRI.staticNeighbors (IRI.start getIP IRI.created answers)) (IRI.address n)
  = false.
Proof.
  intros Hip Hn. apply includes_colon_free; [|exact Hn].
  induction answers as [|[neighbors|] later IH]; simpl; [constructor| |exact IH].
  apply Forall_app. split.
  - apply Forall_forall. intros x Hx. apply in_map_iff in Hx as (h & Hh & _).
    destruct x as [i|]; [|exact I]. now apply (Hip h).
  - apply Forall_forall. intros x Hx. apply in_map_iff in Hx as (h & Hh & Hin).
    subst x. apply in_map_iff in Hin as (m & Hm & _). subst h.
    apply splitHead_no_colon.
Qed.

(** C1, on the code: [start] records the static neighbor [10.1.1.1] and the
    ledger then reports it next to [20.2.2.2]; the request of
    [removeAllNeighbors] names both, the static one included, although
    [isStaticNeighbor], which [removeNeighbors] filters with, knows the
    first as static. *)
Theorem removeAllNeighbors_removes_static :
  let getIP := fun h : string => Some h in
  let X := {| IRI.address := "10.1.1.1:14600"; IRI.connectionType := "udp" |} in
  let Y := {| IRI.address := "20.2.2.2:14600"; IRI.connectionType := "udp" |} in
  let iri := IRI.start getIP IRI.created [None; Some [X]] in
  IRI.staticNeighbors iri = [Some "10.1.1.1"; Some "10.1.1.1"] /\
  IRI.isStatic iri X = true /\
  IRI.isStatic iri Y = false /\
  IRI.isStaticNeighbor iri (Scenario.peerAt "10.1.1.1") = true /\
  IRI.isStaticNeighbor iri (Scenario.peerAt "20.2.2.2") = false /\
  IRI.removeAllNeighbors iri (Some [X; Y])
  = IRI.RemoveNeighbors ["udp://10.1.1.1:14600"; "udp://20.2.2.2:14600"].
Proof.
  repeat split; vm_compute; reflexivity.
Qed.

(** *** Arrays: [indexOf] and [splice] *)

Lemma indexFrom_absent (i : Z) (x : ref) (l : list ref) :
  ~ In x l -> indexFrom i x l = (-1)%Z.
Proof.
  revert i; induction l as [|y l IH]; intros i H; simpl; [reflexivity|].
  destruct (Nat.eqb_spec y x) as [->|_].
  - exfalso. apply H. now left.
  - apply IH. intros Hin. apply H. now right.
Qed.

(** [indexOf] finds the first place where [x] stands. *)
Lemma indexFrom_present (i : Z) (x : ref) (l : list ref) :
  In x l ->
  exists l1 l2, l = (l1 ++ x :: l2)%list /\ ~ In x l1 /\
                indexFrom i x l = (i + Z.of_nat (List.length l1))%Z.
Proof.
  revert i; induction l as [|y l IH]; intros i H; [contradiction|]. simpl.
  destruct (Nat.eqb_spec y x) as [->|Hne].
  - exists [], l. simpl. repeat split; [tauto | lia].
  - destruct H as [H|H]; [contradiction|].
    destruct (IH (i + 1)%Z H) as (l1 & l2 & -> & Hnot & Hi).
    exists (y :: l1), l2. simpl. repeat split.
    + intros [E|E]; [contradiction | now apply Hnot].
    + rewrite Hi. lia.
Qed.

Lemma indexOf_range (x : ref) (l : list ref) :
  (-1 <= indexOf x l < Z.of_nat (List.length l))%Z \/
  (indexOf x l = (-1)%Z /\ l = []).
Proof.
  unfold indexOf. destruct (in_dec Nat.eq_dec x l) as [Hin|Hout].
  - left. destruct (indexFrom_present 0 x l Hin) as (l1 & l2 & -> & _ & ->).
    rewrite length_app. simpl. lia.
  - rewrite (indexFrom_absent 0 x l Hout). destruct l; [right; now split | left; simpl; lia].
Qed.

(** Splicing at the index of a member takes out its first occurrence. *)
Lemma splice_indexOf (x : ref) (l : list ref) :
  In x l ->
  exists l1 l2, l = (l1 ++ x :: l2)%list /\ ~ In x l1 /\
                splice (indexOf x l) l = ([x], (l1 ++ l2)%list).
Proof.
  intros Hin. unfold indexOf.
  destruct (indexFrom_present 0 x l Hin) as (l1 & l2 & -> & Hnot & Hi).
  exists l1, l2. repeat split; [exact Hnot|].
  rewrite Z.add_0_l in Hi.
  unfold splice. rewrite Hi, length_app. simpl List.length.
  replace (Z.of_nat (List.length l1) <? 0)%Z with false by (symmetry; apply Z.ltb_ge; lia).
  rewrite Z.min_l by lia. rewrite Nat2Z.id.
  assert (E1 : firstn (List.length l1) (l1 ++ x :: l2) = l1).
  { rewrite firstn_app, Nat.sub_diag, firstn_all. simpl. apply app_nil_r. }
  assert (E2 : forall k, skipn (List.length l1 + k) (l1 ++ x :: l2) = skipn k (x :: l2)).
  { intros k. rewrite skipn_app.
    replace (List.length l1 + k - List.length l1)%nat with k by lia.
    rewrite skipn_all2 by lia. reflexivity. }
  rewrite E1. f_equal.
  - rewrite <- (Nat.add_0_r (List.length l1)), E2. reflexivity.
  - f_equal. replace (S (List.length l1)) with (List.length l1 + 1)%nat by lia.
    rewrite E2. reflexivity.
Qed.

(** Splicing a non-empty array at [-1] or at an index inside it removes
    exactly one element. *)
Lemma splice_one {A : Type} (start : Z) (l : list A) :
  (0 < List.length l)%nat ->
  (-1 <= start < Z.of_nat (List.length l))%Z ->
  exists w, fst (splice start l) = [w] /\ In w l /\
            S (List.length (snd (splice start l))) = List.length l.
Proof.
  intros Hl H. unfold splice.
  set (i := Z.to_nat
              (if (start <? 0)%Z then Z.max (Z.of_nat (List.length l) + start) 0
               else Z.min start (Z.of_nat (List.length l)))).
  assert (Hi : (i < List.length l)%nat).
  { unfold i. destruct (Z.ltb_spec start 0); lia. }
  clearbody i. clear H. cbn [fst snd].
  destruct (skipn i l) as [|w t] eqn:E.
  - apply (f_equal (@List.length A)) in E. rewrite length_skipn in E. simpl in E. lia.
  - exists w. split; [reflexivity|]. split.
    + rewrite <- (firstn_skipn i l), E. apply in_or_app. right. now left.
    + rewrite length_app, length_firstn, length_skipn. lia.
Qed.

(** *** The [weighted] selection *)

Lemma fold_Qplus_acc (ws : list Q) (a : Q) :
  (fold_left Qplus ws a == a + fold_left Qplus ws 0)%Q.
Proof.
  revert a; induction ws as [|w ws IH]; intros a; simpl.
  - lra.
  - rewrite (IH (a + w)%Q), (IH (0 + w)%Q). lra.
Qed.

Lemma total_cons (w : Q) (ws : list Q) :
  (Weighted.total (w :: ws) == w + Weighted.total ws)%Q.
Proof.
  unfold Weighted.total. simpl. rewrite fold_Qplus_acc. lra.
Qed.

Lemma total_positive (ws : list Q) :
  Forall (fun w => (1 <= w)%Q) ws -> ws <> [] -> (0 < Weighted.total ws)%Q.
Proof.
  intros H. induction H as [|w ws Hw _ IH]; intros Hne; [congruence|].
  rewrite total_cons. destruct ws as [|w' ws'].
  - unfold Weighted.total. simpl. lra.
  - assert (0 < Weighted.total (w' :: ws'))%Q by (apply IH; discriminate). lra.
Qed.

(** A key below the sum of the weights stops the walk at a member. *)
Lemma walk_total {A : Type} (set : list A) (weights : list Q) (key : Q) :
  List.length set = List.length weights ->
  set <> [] ->
  (key < Weighted.total weights)%Q ->
  exists x, Weighted.walk set weights key = Some x /\ In x set.
Proof.
  revert weights key; induction set as [|x set IH]; intros weights key Hlen Hne Hkey;
    [congruence|].
  destruct weights as [|w weights]; [discriminate|]. simpl.
  destruct (Qle_bool 0 (key - w)) eqn:E; simpl.
  - apply Qle_bool_iff in E. rewrite total_cons in Hkey.
    assert (Hk : (key - w < Weighted.total weights)%Q) by lra.
    destruct (IH weights (key - w)%Q) as (y & Hy & Hin).
    + simpl in Hlen. lia.
    + intros ->. destruct weights; [|discriminate].
      unfold Weighted.total in Hk. simpl in Hk. lra.
    + exact Hk.
    + exists y. split; [exact Hy | now right].
  - exists x. split; [reflexivity | now left].
Qed.

(** With weights of at least one and a random number below one, [select]
    returns a member of a non-empty set. *)
Lemma select_total {A : Type} (set : list A) (weights : list Q) (r : Q) :
  List.length set = List.length weights ->
  set <> [] ->
  Forall (fun w => (1 <= w)%Q) weights ->
  (r < 1)%Q ->
  exists x, Weighted.select set weights r = Some x /\ In x set.
Proof.
  intros Hlen Hne Hw Hr. unfold Weighted.select.
  rewrite Hlen, Nat.eqb_refl. apply walk_total; [exact Hlen | exact Hne |].
  assert (Hpos : (0 < Weighted.total weights)%Q).
  { apply total_positive; [exact Hw|]. intros ->. destruct set; [congruence | discriminate]. }
  nra.
Qed.

(** Whatever [select] returns is a member. *)
Lemma walk_member {A : Type} (set : list A) (weights : list Q) (key : Q) (x : A) :
  Weighted.walk set weights key = Some x -> In x set.
Proof.
  revert weights key; induction set as [|y set IH]; intros weights key H; [discriminate|].
  destruct weights as [|w weights]; [discriminate|]. simpl in H.
  destruct (negb (Qle_bool 0 (key - w))).
  - injection H as ->. now left.
  - right. eapply IH, H.
Qed.

Lemma select_member {A : Type} (set : list A) (weights : list Q) (r : Q) (x : A) :
  Weighted.select set weights r = Some x -> In x set.
Proof.
  unfold Weighted.select. destruct (Nat.eqb _ _); [apply walk_member | discriminate].
Qed.

(** *** The sampling loop of [getWeighted] *)

Section Sampling.

Variable opts : Options.
Variable getSecondsPassed : nat -> Z -> Q.
Variable random : nat -> Q.
Hypothesis random_below_one : forall x, (random x < 1)%Q.

Lemma getPeerWeight_ge_one (s : State) (t : nat) (p : ref) :
  (1 <= getPeerWeight opts getSecondsPassed s t p)%Q.
Proof.
  unfold getPeerWeight. destruct (isMaster opts); apply Q.le_max_r.
Qed.

Lemma arrs_setArr_same (a : addr) (l : list ref) (s : State) :
  arrs (setArr a l s) a = l.
Proof. simpl. unfold upd. now rewrite Nat.eqb_refl. Qed.

Lemma arrs_setArr_other (a b : addr) (l : list ref) (s : State) :
  b <> a -> arrs (setArr a l s) b = arrs s b.
Proof.
  intros H. simpl. unfold upd. destruct (Nat.eqb_spec b a); [contradiction | reflexivity].
Qed.




End Sampling.

(** *** The sampling loop, whatever the [weighted] package answers *)

Lemma getPeerWeight_objs (opts : Options) (getSecondsPassed : nat -> Z -> Q)
    (s1 s2 : State) (t : nat) (p : ref) :
  objs s1 = objs s2 ->
  getPeerWeight opts getSecondsPassed s1 t p = getPeerWeight opts getSecondsPassed s2 t p.
Proof. intros H. unfold getPeerWeight. now rewrite H. Qed.

(** What the exact selection returns is an element of the set. *)
Lemma weightedExact_member (random : nat -> Q) : members (weightedExact random).
Proof. intros x set weights p. apply select_member. Qed.

Lemma walk64_member {A : Type} (set : list A) (weights : list Double.double)
    (key : Double.double) (x : A) :
  Weighted64.walk set weights key = Some x -> In x set.
Proof.
  revert weights key; induction set as [|y set IH]; intros weights key H; [discriminate|].
  destruct weights as [|w weights]; [discriminate|]. cbn [Weighted64.walk] in H.
  destruct (Double.ltb (Double.sub key w) Double.zero).
  - injection H as ->. now left.
  - right. eapply IH, H.
Qed.

(** So is what the selection in doubles returns. *)
Lemma weightedDouble_member (random : nat -> Double.double) :
  members (weightedDouble random).
Proof.
  intros x set weights p. unfold weightedDouble, Weighted64.select.
  destruct (Nat.eqb _ _); [apply walk64_member | discriminate].
Qed.

(** With a random number below one the exact selection never throws on a
    set that is not empty and has weights of at least one. *)
Lemma weightedExact_answers (random : nat -> Q) :
  (forall x, (random x < 1)%Q) -> ~ throws (weightedExact random).
Proof.
  intros Hr (x & set & weights & Hne & Hlen & Hw & Hnone). unfold weightedExact in Hnone.
  destruct (select_total set weights (random x)) as (p & Hp & _);
    [now symmetry | exact Hne | exact Hw | apply Hr | congruence].
Qed.

Section SamplingWith.

Variable opts : Options.
Variable getSecondsPassed : nat -> Z -> Q.
Variable weighted : nat -> list ref -> list Q -> option ref.

(** [getWeighted] with the exact selection is [getWeightedWith] of it. *)
Lemma drawLoop_exact (random : nat -> Q) (a : addr) (weightsMax : Q) (n x : nat) (d : Draw) :
  drawLoop opts getSecondsPassed random a weightsMax n x d
  = drawLoopWith opts getSecondsPassed (weightedExact random) a weightsMax n x d.
Proof.
  revert x d; induction n as [|n IH]; intros x d; cbn [drawLoop drawLoopWith]; [reflexivity|].
  change (getChoiceWith opts getSecondsPassed (weightedExact random) a weightsMax x d)
    with (getChoice opts getSecondsPassed random a weightsMax x d).
  destruct (getChoice opts getSecondsPassed random a weightsMax x d) as [d'|]; [|reflexivity].
  now rewrite IH.
Qed.

Lemma getWeighted_exact (random : nat -> Q) (s : State) (amount : nat)
    (sourcePeers : option addr) :
  getWeighted opts getSecondsPassed random s amount sourcePeers
  = getWeightedWith opts getSecondsPassed (weightedExact random) s amount sourcePeers.
Proof.
  unfold getWeighted, getWeightedWith.
  destruct (match sourcePeers with
            | Some src => (src, s)
            | None => newArray (all s) s
            end) as [a s0].
  destruct (map (getPeerWeight opts getSecondsPassed s0 0) (arrs s0 a)) as [|w ws];
    [reflexivity|].
  now rewrite drawLoop_exact.
Qed.

(** A turn of the loop fails only when the package throws. *)
Lemma getChoiceWith_throws (a : addr) (weightsMax : Q) (x : nat) (d : Draw) :
  arrs (st d) a <> [] ->
  getChoiceWith opts getSecondsPassed weighted a weightsMax x d = None ->
  throws weighted.
Proof.
  intros Hne H. unfold getChoiceWith in H.
  destruct (weighted x (arrs (st d) a)
              (map (getPeerWeight opts getSecondsPassed (st d) (S x)) (arrs (st d) a)))
    as [peer|] eqn:Hsel.
  - destruct (splice _ (allWeights d)) as [weightsArray rest]. discriminate.
  - exists x, (arrs (st d) a),
      (map (getPeerWeight opts getSecondsPassed (st d) (S x)) (arrs (st d) a)).
    split; [exact Hne|]. split; [apply length_map|]. split; [|exact Hsel].
    apply Forall_forall. intros w Hw. apply in_map_iff in Hw as (p & <- & _).
    apply getPeerWeight_ge_one.
Qed.

Lemma drawLoopWith_throws (a : addr) (weightsMax : Q) (n x : nat) (d : Draw) :
  arrs (st d) a <> [] ->
  drawLoopWith opts getSecondsPassed weighted a weightsMax n x d = None ->
  throws weighted.
Proof.
  revert x d; induction n as [|n IH]; intros x d Hne H; cbn [drawLoopWith] in H;
    [discriminate|].
  destruct (getChoiceWith opts getSecondsPassed weighted a weightsMax x d) as [d1|] eqn:Hstep.
  - destruct (Nat.ltb_spec (List.length (arrs (st d1) a)) 1) as [Hlt|Hge]; [discriminate|].
    apply (IH (S x) d1); [|exact H]. intros E. rewrite E in Hge. simpl in Hge. lia.
  - now apply (getChoiceWith_throws a weightsMax x d).
Qed.

(** [getWeighted] returns unless the package throws at one of the draws. *)
Lemma getWeightedWith_throws (s : State) (amount : nat) (sourcePeers : option addr) :
  getWeightedWith opts getSecondsPassed weighted s amount sourcePeers = None ->
  throws weighted.
Proof.
  unfold getWeightedWith.
  destruct (match sourcePeers with
            | Some src => (src, s)
            | None => newArray (all s) s
            end) as [a s0].
  destruct (map (getPeerWeight opts getSecondsPassed s0 0) (arrs s0 a)) as [|w ws] eqn:HW;
    [discriminate|].
  destruct (drawLoopWith opts getSecondsPassed weighted a (fold_left Qmax ws w)
              (if Nat.eqb amount 0 then List.length (all s) else amount) 0
              {| st := s0; allWeights := w :: ws; choices := [] |}) as [d|] eqn:Hrun;
    [discriminate|].
  intros _. apply (drawLoopWith_throws a (fold_left Qmax ws w)
                     (if Nat.eqb amount 0 then List.length (all s) else amount) 0
                     {| st := s0; allWeights := w :: ws; choices := [] |}); [|exact Hrun].
  cbn [st]. intros E. rewrite E in HW. discriminate.
Qed.

(** When the package throws at the first draw, so does [getWeighted]. *)
Lemma getWeightedWith_first_draw (s : State) (amount : nat) (sourcePeers : option addr) :
  poolOf s sourcePeers <> [] ->
  (if Nat.eqb amount 0 then List.length (all s) else amount) <> 0%nat ->
  weighted 0 (poolOf s sourcePeers)
    (map (getPeerWeight opts getSecondsPassed s 1) (poolOf s sourcePeers)) = None ->
  getWeightedWith opts getSecondsPassed weighted s amount sourcePeers = None.
Proof.
  intros Hpool Hn Hthrow. unfold getWeightedWith.
  destruct (match sourcePeers with
            | Some src => (src, s)
            | None => newArray (all s) s
            end) as [a s0] eqn:Hstart.
  assert (Harr : arrs s0 a = poolOf s sourcePeers /\ objs s0 = objs s).
  { destruct sourcePeers as [src|]; injection Hstart as <- <-; cbn; [now split|].
    unfold upd. now rewrite Nat.eqb_refl. }
  destruct Harr as [Harr Hobjs].
  destruct (arrs s0 a) as [|q qs] eqn:E; [now rewrite <- Harr in Hpool|].
  cbn [map].
  destruct (if Nat.eqb amount 0 then List.length (all s) else amount) as [|n];
    [congruence|].
  cbn [drawLoopWith]. unfold getChoiceWith. cbn [st]. rewrite E, Harr.
  rewrite (map_ext _ _ (fun p => getPeerWeight_objs opts getSecondsPassed s0 s 1 p Hobjs)).
  now rewrite Hthrow.
Qed.

Hypothesis weighted_member : members weighted.

(** One turn: the peer drawn leaves the array and joins the choices; a
    weight leaves [allWeights]. *)
Lemma getChoiceWith_step (a : addr) (s0 : State) (l0 : list ref) (weightsMax : Q)
    (x : nat) (d d' : Draw) :
  sampling a s0 l0 d ->
  getChoiceWith opts getSecondsPassed weighted a weightsMax x d = Some d' ->
  sampling a s0 l0 d' /\
  List.length (choices d') = S (List.length (choices d)) /\
  S (List.length (arrs (st d') a)) = List.length (arrs (st d) a).
Proof.
  intros (Hobjs & HnO & Hpeers & Hframe & Hlen & Hperm) H.
  unfold getChoiceWith in H.
  destruct (weighted x _ _) as [peer|] eqn:Hsel; [|discriminate].
  apply weighted_member in Hsel.
  destruct (splice_indexOf peer (arrs (st d) a) Hsel) as (l1 & l2 & Hl & Hnot & Hsp).
  rewrite Hsp in H. cbn [snd] in H. rewrite arrs_setArr_same in H.
  assert (Hlen' : List.length (allWeights d) = S (List.length (l1 ++ l2))).
  { rewrite Hlen, Hl, !length_app. simpl. lia. }
  destruct (splice_one (indexOf peer (l1 ++ l2)) (allWeights d)) as (w & Hfst & _ & Hsnd).
  { lia. }
  { destruct (indexOf_range peer (l1 ++ l2)) as [Hi | [Hi _]]; lia. }
  destruct (splice (indexOf peer (l1 ++ l2)) (allWeights d)) as [weightsArray rest].
  cbn [fst snd] in *. injection H as <-.
  split; [|split].
  - unfold sampling. cbn [st allWeights choices].
    rewrite arrs_setArr_same. repeat split; try assumption.
    + intros b Hb. rewrite arrs_setArr_other by exact Hb. now apply Hframe.
    + lia.
    + rewrite map_app, <- app_assoc. cbn [map fst app].
      rewrite <- Hperm, Hl. apply Permutation_app_head.
      apply Permutation_middle.
  - cbn [choices]. rewrite length_app. simpl. lia.
  - cbn [st]. rewrite arrs_setArr_same, Hl, !length_app. simpl. lia.
Qed.

(** The loop: with [n] turns allowed and [m] peers in the array it draws
    [min n m] of them. *)
Lemma drawLoopWith_run (a : addr) (s0 : State) (l0 : list ref) (weightsMax : Q)
    (n x : nat) (d d' : Draw) :
  sampling a s0 l0 d ->
  arrs (st d) a <> [] ->
  drawLoopWith opts getSecondsPassed weighted a weightsMax n x d = Some d' ->
  sampling a s0 l0 d' /\
  List.length (choices d') =
    (List.length (choices d) + Nat.min n (List.length (arrs (st d) a)))%nat /\
  List.length (arrs (st d') a) =
    (List.length (arrs (st d) a) - Nat.min n (List.length (arrs (st d) a)))%nat.
Proof.
  revert x d; induction n as [|n IH]; intros x d Hinv Hne H; cbn [drawLoopWith] in H.
  - injection H as <-. split; [exact Hinv|]. split; lia.
  - destruct (getChoiceWith opts getSecondsPassed weighted a weightsMax x d) as [d1|] eqn:Hstep;
      [|discriminate].
    destruct (getChoiceWith_step a s0 l0 weightsMax x d d1 Hinv Hstep) as (Hinv1 & Hc1 & Hl1).
    destruct (Nat.ltb_spec (List.length (arrs (st d1) a)) 1) as [Hlt|Hge].
    + injection H as <-. split; [exact Hinv1|]. split; lia.
    + destruct (IH (S x) d1 Hinv1) with (2 := H) as (Hinv2 & Hc2 & Hl2).
      { intros E. rewrite E in Hge. simpl in Hge. lia. }
      split; [exact Hinv2|]. split; lia.
Qed.

(** A result of [getWeighted]: the peers it holds and those left in the
    array that was sampled make up the pool, no other array and no peer has
    changed, and a trusted peer carries the ratio [1]. *)
Lemma getWeightedWith_run (s s' : State) (amount : nat) (sourcePeers : option addr)
    (res : list (ref * option Q)) :
  getWeightedWith opts getSecondsPassed weighted s amount sourcePeers = Some (res, s') ->
  objs s' = objs s /\
  peers s' = peers s /\
  (forall b, b <> match sourcePeers with Some src => src | None => nextArr s end ->
             arrs s' b = arrs s b) /\
  Permutation
    (map fst res ++ arrs s' match sourcePeers with Some src => src | None => nextArr s end)%list
    (poolOf s sourcePeers) /\
  List.length res =
    Nat.min (if Nat.eqb amount 0 then List.length (all s) else amount)
            (List.length (poolOf s sourcePeers)) /\
  (forall p r, In (p, r) res -> isTrusted (objs s p) = true -> r = Some 1%Q).
Proof.
  unfold getWeightedWith.
  set (n := if Nat.eqb amount 0 then List.length (all s) else amount).
  set (a := match sourcePeers with Some src => src | None => nextArr s end).
  set (start := match sourcePeers with
                | Some src => (src, s)
                | None => newArray (all s) s
                end).
  assert (Hstart : fst start = a /\ objs (snd start) = objs s /\
                   nextObj (snd start) = nextObj s /\ peers (snd start) = peers s /\
                   (forall b, b <> a -> arrs (snd start) b = arrs s b) /\
                   arrs (snd start) a = poolOf s sourcePeers).
  { unfold start, a. destruct sourcePeers as [src|]; cbn.
    - repeat split; reflexivity.
    - repeat split; try reflexivity.
      + intros b Hb. unfold upd. destruct (Nat.eqb_spec b (nextArr s)); [contradiction|reflexivity].
      + unfold upd. now rewrite Nat.eqb_refl. }
  destruct start as [a' s0]. cbn [fst snd] in Hstart.
  destruct Hstart as (-> & Hobjs & HnO & Hpeers & Hframe & Hpool).
  destruct (arrs s0 a) as [|p ps] eqn:Harr.
  - cbn [map]. intros H. injection H as <- <-. rewrite Harr, <- Hpool. simpl.
    repeat split; try assumption; try reflexivity.
    + now rewrite Nat.min_0_r.
    + contradiction.
  - cbn [map].
    set (w := getPeerWeight opts getSecondsPassed s0 0 p).
    set (ws := map (getPeerWeight opts getSecondsPassed s0 0) ps).
    set (d0 := {| st := s0; allWeights := w :: ws; choices := [] |}).
    assert (Hinv0 : sampling a s0 (poolOf s sourcePeers) d0).
    { unfold sampling, d0. cbn [st allWeights choices]. rewrite Harr.
      repeat split; try reflexivity.
      - unfold ws. simpl. now rewrite length_map.
      - simpl. now rewrite <- Hpool. }
    destruct (drawLoopWith opts getSecondsPassed weighted a (fold_left Qmax ws w) n 0 d0)
      as [d|] eqn:Hrun; [|discriminate].
    intros H. injection H as <- <-.
    destruct (drawLoopWith_run a s0 (poolOf s sourcePeers) (fold_left Qmax ws w) n 0 d0 d Hinv0)
      as ((Ho & HO & Hp & Hf & _ & Hperm) & Hc & _).
    { unfold d0. cbn [st]. rewrite Harr. discriminate. }
    { exact Hrun. }
    repeat split.
    + congruence.
    + congruence.
    + intros b Hb. rewrite Hf by exact Hb. now apply Hframe.
    + rewrite map_map. cbn [fst]. exact Hperm.
    + rewrite length_map, Hc. unfold d0. cbn [st choices]. rewrite Harr, <- Hpool. simpl. lia.
    + intros q r Hin Ht. apply in_map_iff in Hin as ([q' r'] & E & _).
      cbn [fst snd] in E. injection E as <- <-.
      rewrite Ho, Hobjs, Ht. reflexivity.
Qed.

End SamplingWith.

(** *** Which weight a drawn peer is paired with *)

Lemma splice_last {A : Type} (l : list A) (w : A) :
  splice (-1) (l ++ [w])%list = ([w], l).
Proof.
  unfold splice. rewrite length_app. cbn [List.length Z.ltb Z.compare].
  replace (Z.to_nat (Z.max (Z.of_nat (List.length l + 1) + -1) 0)) with (List.length l) by lia.
  f_equal.
  - rewrite skipn_app, Nat.sub_diag, skipn_all. reflexivity.
  - rewrite firstn_app, Nat.sub_diag, firstn_all. cbn [firstn].
    rewrite skipn_all2 by (rewrite length_app; simpl; lia).
    now rewrite !app_nil_r.
Qed.

Section Ratios.

Variable opts : Options.
Variable getSecondsPassed : nat -> Z -> Q.
Variable random : nat -> Q.

(** In an array of distinct peers the second [peers.indexOf(peer)] is [-1],
    so the weight taken out of [allWeights] is its last. *)
Lemma getChoice_fromEnd (a : addr) (W0 : list Q) (weightsMax : Q) (x : nat) (d d' : Draw) :
  getChoice opts getSecondsPassed random a weightsMax x d = Some d' ->
  NoDup (arrs (st d) a) ->
  List.length (allWeights d) = List.length (arrs (st d) a) ->
  fromEnd W0 weightsMax d ->
  NoDup (arrs (st d') a) /\
  List.length (allWeights d') = List.length (arrs (st d') a) /\
  fromEnd W0 weightsMax d' /\
  objs (st d') = objs (st d).
Proof.
  intros H Hnd Hlen (tail & HW & Hc). unfold getChoice in H.
  destruct (Weighted.select _ _ _) as [peer|] eqn:Hsel; [|discriminate].
  apply select_member in Hsel.
  destruct (splice_indexOf peer (arrs (st d) a) Hsel) as (l1 & l2 & Hl & _ & Hsp).
  rewrite Hsp in H. cbn [snd] in H. rewrite arrs_setArr_same in H.
  rewrite Hl in Hnd. pose proof (NoDup_remove_2 _ _ _ Hnd) as Hout.
  apply NoDup_remove_1 in Hnd.
  unfold indexOf in H. rewrite (indexFrom_absent 0 peer (l1 ++ l2) Hout) in H.
  destruct (exists_last (l := allWeights d)) as (W & w & HWw).
  { intros E. rewrite E, Hl, length_app in Hlen. simpl in Hlen. lia. }
  rewrite HWw, splice_last in H. cbn [hd_error option_map] in H.
  injection H as <-. cbn [st allWeights choices]. rewrite arrs_setArr_same.
  split; [exact Hnd|]. split; [|split; [|reflexivity]].
  - rewrite HWw, Hl, !length_app in Hlen. simpl in Hlen. rewrite length_app. lia.
  - exists (w :: tail). split.
    + cbn [allWeights]. rewrite HW, HWw, <- app_assoc. reflexivity.
    + cbn [choices]. rewrite map_app, Hc. cbn [map snd rev]. now rewrite map_app.
Qed.

Lemma drawLoop_fromEnd (a : addr) (W0 : list Q) (weightsMax : Q) (n x : nat) (d d' : Draw) :
  drawLoop opts getSecondsPassed random a weightsMax n x d = Some d' ->
  NoDup (arrs (st d) a) ->
  List.length (allWeights d) = List.length (arrs (st d) a) ->
  fromEnd W0 weightsMax d ->
  fromEnd W0 weightsMax d' /\ objs (st d') = objs (st d).
Proof.
  revert x d; induction n as [|n IH]; intros x d H Hnd Hlen Hfrom; cbn [drawLoop] in H.
  - injection H as <-. now split.
  - destruct (getChoice opts getSecondsPassed random a weightsMax x d) as [d1|] eqn:Hstep;
      [|discriminate].
    destruct (getChoice_fromEnd a W0 weightsMax x d d1 Hstep Hnd Hlen Hfrom)
      as (Hnd1 & Hlen1 & Hfrom1 & Hobjs1).
    destruct (Nat.ltb _ 1).
    + injection H as <-. now split.
    + destruct (IH (S x) d1 H Hnd1 Hlen1 Hfrom1) as (Hfrom' & Hobjs').
      split; [exact Hfrom' | congruence].
Qed.

(** What [getWeighted] returns for a pool of distinct peers: the [i]-th
    peer drawn, unless trusted, is paired with the weight of the [i]-th
    peer from the end of the pool, whichever peer was drawn. *)
Lemma getWeighted_ratios_from_end (s s' : State) (amount : nat) (sourcePeers : option addr)
    (res : list (ref * option Q)) :
  NoDup (poolOf s sourcePeers) ->
  getWeighted opts getSecondsPassed random s amount sourcePeers = Some (res, s') ->
  let W0 := map (getPeerWeight opts getSecondsPassed s 0) (poolOf s sourcePeers) in
  exists front tail,
    W0 = (front ++ tail)%list /\
    Forall2 (fun c w => isTrusted (objs s (fst c)) = false ->
                        snd c = Some (w / maxWeight W0)%Q)
            res (rev tail).
Proof.
  intros Hnd H W0. unfold getWeighted in H.
  set (a := match sourcePeers with Some src => src | None => nextArr s end).
  set (start := match sourcePeers with
                | Some src => (src, s)
                | None => newArray (all s) s
                end) in H.
  assert (Hstart : fst start = a /\ objs (snd start) = objs s /\
                   arrs (snd start) a = poolOf s sourcePeers).
  { unfold start, a. destruct sourcePeers as [src|]; cbn.
    - repeat split; reflexivity.
    - repeat split. unfold upd. now rewrite Nat.eqb_refl. }
  destruct start as [a' s0]. cbn [fst snd] in Hstart.
  destruct Hstart as (-> & Hobjs & Hpool).
  assert (HW : map (getPeerWeight opts getSecondsPassed s0 0) (arrs s0 a) = W0).
  { unfold W0. rewrite Hpool. apply map_ext. intros p. now apply getPeerWeight_objs. }
  rewrite HW in H. destruct W0 as [|w ws] eqn:EW.
  - injection H as <- <-. exists [], []. split; [reflexivity | constructor].
  - destruct (drawLoop _ _ _ _ _ _ _ _) as [d|] eqn:Hrun; [|discriminate].
    injection H as <- <-.
    destruct (drawLoop_fromEnd a (w :: ws) (fold_left Qmax ws w) _ _ _ _ Hrun)
      as ((tail & Htail & Hc) & Hobjs').
    + cbn [st]. now rewrite Hpool.
    + cbn [st allWeights]. rewrite <- HW. now rewrite length_map.
    + exists []. cbn [allWeights choices]. split; [now rewrite app_nil_r | reflexivity].
    + exists (allWeights d), tail. split; [exact Htail|].
      cbn [maxWeight]. cbn [st] in Hobjs'.
      revert Hc. generalize (rev tail). generalize (choices d).
      induction l as [|c cs IHc]; intros [|v vs] Hc; try discriminate; cbn [map].
      * constructor.
      * injection Hc as Hv Hvs. constructor; [|now apply IHc].
        cbn [fst snd]. rewrite Hobjs', Hobjs. intros ->. exact Hv.
Qed.

End Ratios.

(** *** [getWeighted] *)

(** C2, on the code: of two untrusted peers aged one hour, [a.example]
    (weight 2) has the maximal computed weight, so its ratio should be [1]
    and that of [b.example] (weight 1) should be [1/2]; drawn first,
    [a.example] is returned with the ratio [1/2], which is the weight of
    [b.example] over the maximum, and [b.example] with [1]. *)
Theorem getWeighted_ratio_of_other_peer :
  let age := Scenario.secondsSince 3600000 in
  let s := Scenario.twoPeers in
  let wA := getPeerWeight DEFAULT_OPTIONS age s 0 0%nat in
  let wB := getPeerWeight DEFAULT_OPTIONS age s 0 1%nat in
  all s = [0; 1]%nat /\
  isTrusted (objs s 0%nat) = false /\ isTrusted (objs s 1%nat) = false /\
  Qred wA = 7200%Q /\ Qred wB = 3600%Q /\
  Qred (wA / Qmax wA wB) = 1%Q /\
  Qred (wB / Qmax wA wB) = (1 # 2)%Q /\
  option_map (fun r => reduced (fst r))
    (getWeighted DEFAULT_OPTIONS age Scenario.low s 2 None)
  = Some [(0%nat, Some (1 # 2)%Q); (1%nat, Some 1%Q)].
Proof.
  repeat split; vm_compute; reflexivity.
Qed.


(** The two runs above come out the same when the selection is computed
    in doubles. *)
Lemma getWeighted_runs_in_doubles :
  let age := Scenario.secondsSince 3600000 in
  let weighted := weightedDouble Scenario.low64 in
  let src := fst Scenario.withSource in
  option_map (fun r => reduced (fst r))
    (getWeightedWith DEFAULT_OPTIONS age weighted Scenario.twoPeers 2 None)
  = Some [(0%nat, Some (1 # 2)%Q); (1%nat, Some 1%Q)] /\
  option_map (fun r => arrs (snd r) src)
    (getWeightedWith DEFAULT_OPTIONS age weighted (snd Scenario.withSource) 1 (Some src))
  = Some [1%nat].
Proof.
  split; vm_compute; reflexivity.
Qed.



(** *** [update], [markConnected], [add] and the bound on weights *)

Lemma MAX_WEIGHT_positive : (0 <= MAX_WEIGHT)%Q.
Proof. unfold MAX_WEIGHT. lra. Qed.

Lemma objs_update_same (s : State) (peer : ref) (data : Patch) :
  objs (update s peer data) peer = merge (objs s peer) data.
Proof. simpl. unfold upd. now rewrite Nat.eqb_refl. Qed.

Lemma objs_update_other (s : State) (peer r : ref) (data : Patch) :
  r <> peer -> objs (update s peer data) r = objs s r.
Proof.
  intros H. simpl. unfold upd. destruct (Nat.eqb_spec r peer); [contradiction | reflexivity].
Qed.

Lemma all_update (s : State) (peer : ref) (data : Patch) :
  all (update s peer data) = all s.
Proof. reflexivity. Qed.

(** An update keeps the bound when the weight it leaves in a peer of the
    list is in range. *)
Lemma bounded_update (s : State) (peer : ref) (data : Patch) :
  bounded s ->
  (In peer (all s) -> inRange (weight (merge (objs s peer) data))) ->
  bounded (update s peer data).
Proof.
  intros Hb Hw p Hp. rewrite all_update in Hp.
  destruct (Nat.eq_dec p peer) as [->|Hne].
  - rewrite objs_update_same. now apply Hw.
  - rewrite objs_update_other by exact Hne. now apply Hb.
Qed.

Lemma bounded_markConnected (s : State) (peer : ref) (increaseWeight : bool) (now : Z) :
  bounded s -> bounded (markConnected s peer increaseWeight now).
Proof.
  intros Hb. unfold markConnected. apply bounded_update; [exact Hb|].
  intros Hin. destruct (Hb peer Hin) as [Hlo Hhi]. cbn.
  pose proof MAX_WEIGHT_positive as HM.
  assert (Hm : (0 <= weight (objs s peer) *
                     (if increaseWeight then CONNECTION_WEIGHT_MULTIPLIER else 1))%Q).
  { destruct increaseWeight; unfold CONNECTION_WEIGHT_MULTIPLIER; lra. }
  split.
  - apply Q.min_glb; assumption.
  - apply Q.le_min_r.
Qed.

(** The callback of [add] when nothing was found: a new peer, at the end
    of the list. *)
Lemma addThen_nil (opts : Options) (s : State) (h : string)
    (port' TCPPort' UDPPort' : Js.num) (tr : bool) (w : Q) (now : Z) :
  fst (addThen opts s [] h port' TCPPort' UDPPort' tr w now) = nextObj s /\
  all (snd (addThen opts s [] h port' TCPPort' UDPPort' tr w now))
  = (all s ++ [nextObj s])%list /\
  objs (snd (addThen opts s [] h port' TCPPort' UDPPort' tr w now))
  = upd (objs s) (nextObj s)
      {| hostname := cleanAddress h;
         ip := if Ip.isV4Format (cleanAddress h) || Ip.isV6Format (cleanAddress h)
               then Some (cleanAddress h) else None;
         port := port';
         TCPPort := if Js.truthyNum TCPPort' then TCPPort' else Js.Int DEFAULT_TCPPort;
         UDPPort := if Js.truthyNum UDPPort' then UDPPort' else Js.Int DEFAULT_UDPPort;
         isTrusted := tr; weight := w; dateCreated := now; dateLastConnected := None;
         connected := 0; tried := 0 |} /\
  nextObj (snd (addThen opts s [] h port' TCPPort' UDPPort' tr w now)) = S (nextObj s) /\
  nextArr (snd (addThen opts s [] h port' TCPPort' UDPPort' tr w now)) = nextArr s /\
  peers (snd (addThen opts s [] h port' TCPPort' UDPPort' tr w now)) = peers s.
Proof.
  unfold addThen, newPeer, setArr, all.
  cbn [fst snd objs arrs peers nextObj nextArr]. unfold upd. rewrite Nat.eqb_refl.
  repeat split.
Qed.

(** The callback of [add] keeps the bound when the supplied weight is in
    range, whatever the search has found. *)
Lemma bounded_addThen (opts : Options) (s : State) (found : list ref) (h : string)
    (port' TCPPort' UDPPort' : Js.num) (tr : bool) (w : Q) (now : Z) :
  bounded s -> inRange w ->
  bounded (snd (addThen opts s found h port' TCPPort' UDPPort' tr w now)).
Proof.
  intros Hb Hw. destruct found as [|existing rest].
  - destruct (addThen_nil opts s h port' TCPPort' UDPPort' tr w now)
      as (_ & Hall & Hobjs & _).
    intros p Hp. rewrite Hall in Hp. rewrite Hobjs. unfold upd.
    destruct (Nat.eqb_spec p (nextObj s)) as [->|Hne]; [exact Hw|].
    apply Hb. apply in_app_or in Hp as [Hp|[Hp|[]]]; [exact Hp | congruence].
  - unfold addThen. destruct (negb (multiPort opts) && _); cbn [snd].
    + apply bounded_update; [exact Hb|]. intros Hin. cbn. now apply Hb.
    + destruct (negb (Qle_bool w (weight (objs s existing)))); cbn [snd].
      * apply bounded_update; [exact Hb|]. intros _. exact Hw.
      * exact Hb.
Qed.

Lemma bounded_add (opts : Options) (resolveA : string -> option (list string)) (s : State)
    (h : string) (p t u : Js.value) (tr : bool) (w : Q) (now : Z) :
  bounded s -> inRange w ->
  bounded (snd (add opts resolveA s h p t u tr w now)).
Proof. intros Hb Hw. unfold add. now apply bounded_addThen. Qed.

Lemma bounded_loadDefaults (opts : Options) (resolveA : string -> option (list string))
    (uris : list string) (now : Z) (s : State) :
  bounded s -> bounded (loadDefaults opts resolveA s uris now).
Proof.
  revert s; induction uris as [|uri uris IH]; intros s Hb; simpl; [exact Hb|].
  apply IH, bounded_add; [exact Hb|]. unfold inRange, MAX_WEIGHT. lra.
Qed.

(** [docs.map((data) => new Peer(data))]: each new peer holds one of the
    documents, and nothing else changes. *)
Lemma newPeers_spec (docs : list PeerData) (s : State) :
  (forall p, In p (fst (newPeers docs s)) -> In (objs (snd (newPeers docs s)) p) docs) /\
  (forall r, (r < nextObj s)%nat -> objs (snd (newPeers docs s)) r = objs s r) /\
  (nextObj s <= nextObj (snd (newPeers docs s)))%nat /\
  arrs (snd (newPeers docs s)) = arrs s /\
  nextArr (snd (newPeers docs s)) = nextArr s.
Proof.
  revert s; induction docs as [|d docs IH]; intros s.
  - simpl. repeat split; try reflexivity; try lia; try contradiction.
  - cbn [newPeers]. unfold newPeer.
    set (s1 := {| objs := upd (objs s) (nextObj s) d; nextObj := S (nextObj s);
                  arrs := arrs s; nextArr := nextArr s; peers := peers s |}).
    specialize (IH s1). destruct (newPeers docs s1) as [ps s2]. cbn [fst snd] in *.
    destruct IH as (Hin & Hold & Hnext & Harrs & HnA).
    repeat split.
    + intros p [<-|Hp].
      * left. rewrite Hold by (simpl; lia). simpl. unfold upd. now rewrite Nat.eqb_refl.
      * right. now apply Hin.
    + intros r Hr. rewrite Hold by (simpl; lia). simpl. unfold upd.
      destruct (Nat.eqb_spec r (nextObj s)); [lia | reflexivity].
    + simpl in Hnext. lia.
    + exact Harrs.
    + exact HnA.
Qed.

Lemma bounded_load (opts : Options) (resolveA : string -> option (list string))
    (s : State) (docs : list PeerData) (uris : list string) (now : Z) :
  Forall (fun d => inRange (weight d)) docs ->
  bounded (load opts resolveA s docs uris now).
Proof.
  intros Hdocs. unfold load.
  pose proof (newPeers_spec docs s) as (Hin & _).
  destruct (newPeers docs s) as [ps s1]. cbn [fst snd] in Hin.
  cbn [newArray]. apply bounded_loadDefaults.
  intros p Hp. unfold all in Hp. cbn in Hp. unfold upd in Hp. rewrite Nat.eqb_refl in Hp.
  cbn [objs]. apply Hin in Hp. rewrite Forall_forall in Hdocs. now apply Hdocs.
Qed.

(** C4, as stated, fails: [add] stores the weight it is given, here one
    above [MAX_WEIGHT] and one below zero. *)
Lemma add_stores_any_weight :
  let above := snd (add DEFAULT_OPTIONS Scenario.noRecord initial "a.example"
                      Scenario.port16600 Js.VUndefined Js.VUndefined false 5000000%Q 0%Z) in
  let below := snd (add DEFAULT_OPTIONS Scenario.noRecord initial "a.example"
                      Scenario.port16600 Js.VUndefined Js.VUndefined false (-1)%Q 0%Z) in
  bounded initial /\
  all above = [0%nat] /\ weight (objs above 0%nat) = 5000000%Q /\ ~ bounded above /\
  all below = [0%nat] /\ weight (objs below 0%nat) = (-1)%Q /\ ~ bounded below.
Proof.
  split; [intros p []|].
  split; [vm_compute; reflexivity|]. split; [vm_compute; reflexivity|].
  split.
  { intros H. destruct (H 0%nat) as [_ Hhi]; [now left|].
    vm_compute in Hhi. now apply Hhi. }
  split; [vm_compute; reflexivity|]. split; [vm_compute; reflexivity|].
  intros H. destruct (H 0%nat) as [Hlo _]; [now left|].
  vm_compute in Hlo. now apply Hlo.
Qed.

(** C4, amended: when every peer of the list has its weight in
    [[0, MAX_WEIGHT]], this is still so after [markConnected], which clamps
    the weight it writes at [MAX_WEIGHT], after [loadDefaults], whose adds
    supply the weight [1], and after an [add] or an [update] whose supplied
    weight is itself in [[0, MAX_WEIGHT]] ([add] and [update] store the
    weight they are given, without clamping); [load] gives such a list when
    the stored documents are in range. *)
Theorem weight_bound_preserved (opts : Options)
    (resolveA : string -> option (list string)) (s : State) :
  bounded s ->
  (forall peer increaseWeight now, bounded (markConnected s peer increaseWeight now)) /\
  (forall uris now, bounded (loadDefaults opts resolveA s uris now)) /\
  (forall h p t u tr w now,
      inRange w -> bounded (snd (add opts resolveA s h p t u tr w now))) /\
  (forall peer data,
      match set_weight data with
      | Some w => inRange w
      | None => True
      end ->
      bounded (update s peer data)) /\
  (forall docs uris now,
      Forall (fun d => inRange (weight d)) docs ->
      bounded (load opts resolveA s docs uris now)).
Proof.
  intros Hb. split; [|split; [|split; [|split]]].
  - intros. now apply bounded_markConnected.
  - intros. now apply bounded_loadDefaults.
  - intros. now apply bounded_add.
  - intros peer data Hw. apply bounded_update; [exact Hb|].
    intros Hin. cbn. destruct (set_weight data); [exact Hw | now apply Hb].
  - intros. now apply bounded_load.
Qed.

Lemma bounded_twoPeers : bounded Scenario.twoPeers.
Proof.
  intros p Hp. vm_compute in Hp.
  destruct Hp as [<-|[<-|[]]]; vm_compute; split; discriminate.
Defined.

Lemma weight_bound_preserved_witness :
  bounded (markConnected Scenario.twoPeers 0%nat true 60000%Z) /\
  bounded (snd (add DEFAULT_OPTIONS Scenario.noRecord Scenario.twoPeers "c.example"
                  Scenario.port16600 Js.VUndefined Js.VUndefined false 4000000%Q 0%Z)).
Proof.
  destruct (weight_bound_preserved DEFAULT_OPTIONS Scenario.noRecord Scenario.twoPeers
              bounded_twoPeers) as (Hmark & _ & Hadd & _).
  split.
  - apply Hmark.
  - apply Hadd. vm_compute. split; discriminate.
Defined.

(** *** [findByAddress] and [add] *)

Section Adding.

Variable opts : Options.
Variable resolveA : string -> option (list string).

Lemma findWithIP_incl (s : State) (addr' address : string) (port' : Js.num)
    (ip' : option string) (p : ref) :
  In p (findWithIP opts s addr' address port' ip') -> In p (all s).
Proof.
  unfold findWithIP. destruct (multiPort opts); intros H.
  - apply filter_In in H as [H _]. now apply filter_In in H as [H _].
  - now apply filter_In in H as [H _].
Qed.

(** What [findByAddress] finds is in the list. *)
Lemma findByAddress_incl (s : State) (address : string) (port' : Js.num) (p : ref) :
  In p (findByAddress opts resolveA s address port') -> In p (all s).
Proof.
  unfold findByAddress. destruct (_ || _ || _); apply findWithIP_incl.
Qed.

Lemma findWithIP_NaN (s : State) (addr' address : string) (ip' : option string) :
  multiPort opts = true -> findWithIP opts s addr' address Js.NaN ip' = [].
Proof.
  intros H. unfold findWithIP. rewrite H.
  induction (filter (sameAddress s addr' address ip') (all s)) as [|p l IH]; simpl.
  - reflexivity.
  - destruct (port (objs s p)); exact IH.
Qed.

(** With [multiPort], no stored port is [==] to [NaN]: nothing is found. *)
Lemma findByAddress_NaN (s : State) (address : string) :
  multiPort opts = true -> findByAddress opts resolveA s address Js.NaN = [].
Proof.
  intros H. unfold findByAddress. destruct (_ || _ || _); now apply findWithIP_NaN.
Qed.

(** The search reads the list and, of each peer in it, the host name, the
    address and the port. *)
Lemma findByAddress_ext (s s' : State) (address : string) (port' : Js.num) :
  all s' = all s ->
  (forall p, In p (all s) ->
             hostname (objs s' p) = hostname (objs s p) /\
             ip (objs s' p) = ip (objs s p) /\
             port (objs s' p) = port (objs s p)) ->
  findByAddress opts resolveA s' address port' = findByAddress opts resolveA s address port'.
Proof.
  intros Hall Hsame.
  assert (Hfind : forall addr' ip',
             findWithIP opts s' addr' address port' ip'
             = findWithIP opts s addr' address port' ip').
  { intros addr' ip'. unfold findWithIP. rewrite Hall.
    assert (E : filter (sameAddress s' addr' address ip') (all s)
                = filter (sameAddress s addr' address ip') (all s)).
    { apply filter_ext_in. intros p Hp. unfold sameAddress.
      destruct (Hsame p Hp) as (-> & -> & _). reflexivity. }
    rewrite E. destruct (multiPort opts); [|reflexivity].
    apply filter_ext_in. intros p Hp. apply filter_In in Hp as [Hp _].
    destruct (Hsame p Hp) as (_ & _ & ->). reflexivity. }
  unfold findByAddress. destruct (_ || _ || _); apply Hfind.
Qed.


(** [add] of an address that no peer has: a new peer at the end of the list. *)
Lemma add_new (s : State) (h : string) (p t u : Js.value) (tr : bool) (w : Q) (now : Z) :
  findByAddress opts resolveA s h (parsedPort p) = [] ->
  fst (add opts resolveA s h p t u tr w now) = nextObj s /\
  all (snd (add opts resolveA s h p t u tr w now)) = (all s ++ [nextObj s])%list /\
  objs (snd (add opts resolveA s h p t u tr w now)) (nextObj s)
  = {| hostname := cleanAddress h;
       ip := if Ip.isV4Format (cleanAddress h) || Ip.isV6Format (cleanAddress h)
             then Some (cleanAddress h) else None;
       port := parsedPort p;
       TCPPort := if Js.truthyNum (parsedTCPPort t) then parsedTCPPort t
                  else Js.Int DEFAULT_TCPPort;
       UDPPort := if Js.truthyNum (parsedUDPPort u) then parsedUDPPort u
                  else Js.Int DEFAULT_UDPPort;
       isTrusted := tr; weight := w; dateCreated := now; dateLastConnected := None;
       connected := 0; tried := 0 |} /\
  (forall q, q <> nextObj s ->
             objs (snd (add opts resolveA s h p t u tr w now)) q = objs s q).
Proof.
  intros Hfind. unfold add. fold (parsedPort p) (parsedTCPPort t) (parsedUDPPort u).
  rewrite Hfind.
  destruct (addThen_nil opts s h (parsedPort p) (parsedTCPPort t) (parsedUDPPort u) tr w now)
    as (Hfst & Hall & Hobjs & _).
  rewrite Hobjs. unfold upd. rewrite Nat.eqb_refl.
  repeat split; try assumption.
  intros q Hq. destruct (Nat.eqb_spec q (nextObj s)); [contradiction | reflexivity].
Qed.

End Adding.

(** C5, as stated, fails: with the port [abc], which [parseInt] turns into
    [NaN], [add] inserts a peer into an empty list, and overwrites the port
    of a peer it finds. *)
Lemma add_unparseable_port_mutates :
  let inserted := snd (add DEFAULT_OPTIONS Scenario.noRecord initial "node-a.example"
                         (Js.VStr "abc") Js.VUndefined Js.VUndefined false 0%Q 0%Z) in
  let overwritten := snd (add DEFAULT_OPTIONS Scenario.noRecord Scenario.twoPeers "a.example"
                            (Js.VStr "abc") Js.VUndefined Js.VUndefined false 0%Q 0%Z) in
  Js.parseInt (Js.VStr "abc") = Js.NaN /\
  all initial = [] /\
  all inserted = [0%nat] /\
  port (objs inserted 0%nat) = Js.NaN /\
  port (objs Scenario.twoPeers 0%nat) = Js.Int 16600 /\
  port (objs overwritten 0%nat) = Js.NaN.
Proof.
  repeat split; vm_compute; reflexivity.
Qed.

(** C5, amended: [add] does not validate the port.  When it does not parse
    ([parseInt] gives [NaN]) and no peer matches the address, which is
    always so under [multiPort], a new peer with the port [NaN] is appended
    and the peers already in the list are left as they were; when a peer
    matches, [multiPort] being off, the port fields of the first match are
    overwritten with the parsed values, its port becoming [NaN], and every
    other peer is left as it was. *)
Theorem add_unparseable_port (opts : Options) (resolveA : string -> option (list string))
    (s : State) (h : string) (p t u : Js.value) (tr : bool) (w : Q) (now : Z) :
  Js.parseInt p = Js.NaN ->
  allocated s ->
  match findByAddress opts resolveA s h Js.NaN with
  | [] =>
      all (snd (add opts resolveA s h p t u tr w now)) = (all s ++ [nextObj s])%list /\
      port (objs (snd (add opts resolveA s h p t u tr w now)) (nextObj s)) = Js.NaN /\
      hostname (objs (snd (add opts resolveA s h p t u tr w now)) (nextObj s))
      = cleanAddress h /\
      (forall q, In q (all s) ->
                 objs (snd (add opts resolveA s h p t u tr w now)) q = objs s q)
  | existing :: _ =>
      multiPort opts = false /\
      In existing (all s) /\
      all (snd (add opts resolveA s h p t u tr w now)) = all s /\
      port (objs (snd (add opts resolveA s h p t u tr w now)) existing) = Js.NaN /\
      TCPPort (objs (snd (add opts resolveA s h p t u tr w now)) existing)
      = parsedTCPPort t /\
      UDPPort (objs (snd (add opts resolveA s h p t u tr w now)) existing)
      = parsedUDPPort u /\
      (forall q, q <> existing ->
                 objs (snd (add opts resolveA s h p t u tr w now)) q = objs s q)
  end.
Proof.
  intros Hp Halloc.
  destruct (findByAddress opts resolveA s h Js.NaN) as [|existing rest] eqn:Hfind.
  - assert (Hfind' : findByAddress opts resolveA s h (parsedPort p) = [])
      by (unfold parsedPort; now rewrite Hp).
    destruct (add_new opts resolveA s h p t u tr w now Hfind') as (_ & Hall & Hobj & Hold).
    split; [exact Hall|]. rewrite Hobj. cbn [port hostname].
    split; [exact Hp|]. split; [reflexivity|].
    intros q Hq. apply Hold. specialize (Halloc q Hq). lia.
  - assert (Hmp : multiPort opts = false).
    { destruct (multiPort opts) eqn:E; [|reflexivity].
      rewrite (findByAddress_NaN opts resolveA s h E) in Hfind. discriminate. }
    split; [exact Hmp|]. split.
    { apply (findByAddress_incl opts resolveA s h Js.NaN). rewrite Hfind. now left. }
    unfold add, parsedPort. rewrite Hp, Hfind. unfold addThen. rewrite Hmp. cbn [negb andb orb Js.strictEq snd].
    rewrite objs_update_same. cbn.
    repeat split. intros q Hq. unfold upd.
    destruct (Nat.eqb_spec q existing); [contradiction | reflexivity].
Qed.

Lemma allocated_initial : allocated initial.
Proof. intros p []. Defined.

Lemma add_unparseable_port_witness :
  all (snd (add DEFAULT_OPTIONS Scenario.noRecord initial "node-a.example" (Js.VStr "abc")
              Js.VUndefined Js.VUndefined true 1%Q 0%Z)) = [0%nat] /\
  port (objs (snd (add DEFAULT_OPTIONS Scenario.noRecord initial "node-a.example"
                     (Js.VStr "abc") Js.VUndefined Js.VUndefined true 1%Q 0%Z)) 0%nat)
  = Js.NaN.
Proof.
  pose proof (add_unparseable_port DEFAULT_OPTIONS Scenario.noRecord initial "node-a.example"
                (Js.VStr "abc") Js.VUndefined Js.VUndefined true 1%Q 0%Z
                eq_refl allocated_initial) as H.
  vm_compute (findByAddress _ _ _ _ _) in H.
  destruct H as (Hall & Hport & _). split; [exact Hall | exact Hport].
Defined.

Lemma strictEq_refl (n : Js.num) : n <> Js.NaN -> Js.strictEq n n = true.
Proof. destruct n as [|z]; [congruence|]. intros _. apply Z.eqb_refl. Qed.






(** *** The peers of a list are distinct objects *)

Lemma wellFormed_update (s : State) (peer : ref) (data : Patch) :
  wellFormed s -> wellFormed (update s peer data).
Proof. intros H. exact H. Qed.

Lemma wellFormed_addThen (opts : Options) (s : State) (found : list ref) (h : string)
    (port' TCPPort' UDPPort' : Js.num) (tr : bool) (w : Q) (now : Z) :
  wellFormed s ->
  wellFormed (snd (addThen opts s found h port' TCPPort' UDPPort' tr w now)).
Proof.
  intros (Hnd & Halloc & Hp). destruct found as [|existing rest].
  - destruct (addThen_nil opts s h port' TCPPort' UDPPort' tr w now)
      as (_ & Hall & _ & HnO & HnA & Hpeers).
    unfold wellFormed, allocated. rewrite Hall, HnO, HnA, Hpeers.
    split; [|split; [|exact Hp]].
    + apply NoDup_app; [exact Hnd | repeat constructor; intros [] |].
      intros q Hq [E|[]]. specialize (Halloc q Hq). lia.
    + intros q Hq. apply in_app_or in Hq as [Hq|[E|[]]]; [|lia].
      specialize (Halloc q Hq). lia.
  - unfold addThen. destruct (negb (multiPort opts) && _); cbn [snd].
    + now apply wellFormed_update.
    + destruct (negb (Qle_bool w (weight (objs s existing)))); cbn [snd].
      * now apply wellFormed_update.
      * now split.
Qed.

Lemma wellFormed_loadDefaults (opts : Options) (resolveA : string -> option (list string))
    (uris : list string) (now : Z) (s : State) :
  wellFormed s -> wellFormed (loadDefaults opts resolveA s uris now).
Proof.
  revert s; induction uris as [|uri uris IH]; intros s H; simpl; [exact H|].
  apply IH. unfold add. now apply wellFormed_addThen.
Qed.

(** The references [newPeers] returns are new and distinct. *)
Lemma newPeers_fresh (docs : list PeerData) (s : State) :
  NoDup (fst (newPeers docs s)) /\
  (forall p, In p (fst (newPeers docs s)) ->
             (nextObj s <= p < nextObj (snd (newPeers docs s)))%nat) /\
  (nextObj s <= nextObj (snd (newPeers docs s)))%nat.
Proof.
  revert s; induction docs as [|d docs IH]; intros s.
  - simpl. split; [constructor|]. split; [contradiction | lia].
  - cbn [newPeers]. unfold newPeer.
    set (s1 := {| objs := upd (objs s) (nextObj s) d; nextObj := S (nextObj s);
                  arrs := arrs s; nextArr := nextArr s; peers := peers s |}).
    specialize (IH s1). destruct (newPeers docs s1) as [ps s2]. cbn [fst snd] in *.
    destruct IH as (Hnd & Hrange & Hnext). simpl in Hrange, Hnext.
    split; [|split].
    + constructor; [|exact Hnd]. intros Hin. apply Hrange in Hin. lia.
    + intros p [<-|Hp]; [lia|]. apply Hrange in Hp. lia.
    + lia.
Qed.

Lemma wellFormed_load (opts : Options) (resolveA : string -> option (list string))
    (s : State) (docs : list PeerData) (uris : list string) (now : Z) :
  wellFormed (load opts resolveA s docs uris now).
Proof.
  unfold load.
  pose proof (newPeers_fresh docs s) as (Hnd & Hrange & _).
  pose proof (newPeers_spec docs s) as (_ & _ & _ & _ & HnA).
  destruct (newPeers docs s) as [ps s1]. cbn [fst snd] in *.
  cbn [newArray]. apply wellFormed_loadDefaults.
  unfold wellFormed, allocated, all. cbn. unfold upd. rewrite Nat.eqb_refl.
  split; [exact Hnd|]. split; [|lia].
  intros p Hp. apply Hrange in Hp. lia.
Qed.

(** In every state a [PeerList] goes through, [this.peers] is an array of
    distinct peers. *)
Lemma reachable_wellFormed (opts : Options) (resolveA : string -> option (list string))
    (s : State) :
  reachable opts resolveA s -> wellFormed s.
Proof.
  induction 1.
  - unfold wellFormed, allocated, all. cbn. split; [constructor|]. split; [contradiction | lia].
  - unfold add. now apply wellFormed_addThen.
  - now apply wellFormed_update.
  - now apply wellFormed_update.
  - unfold wellFormed, allocated, all. cbn. unfold upd. rewrite Nat.eqb_refl.
    split; [constructor|]. split; [contradiction | lia].
  - apply wellFormed_load.
Qed.

(** *** [getWeighted]: what a result holds, and when there is none *)

(** C6, as stated, fails: from an array of the caller that holds
    [a.example] twice, [getWeighted(2, source)] returns [a.example] twice,
    with the selection computed exactly and with it computed in doubles. *)
Lemma getWeighted_repeats_peer :
  let age := Scenario.secondsSince 3600000 in
  let src := fst Scenario.withRepeat in
  let s := snd Scenario.withRepeat in
  arrs s src = [0; 0]%nat /\
  option_map (fun r => map fst (fst r))
    (getWeighted DEFAULT_OPTIONS age Scenario.low s 2 (Some src)) = Some [0; 0]%nat /\
  option_map (fun r => map fst (fst r))
    (getWeightedWith DEFAULT_OPTIONS age (weightedDouble Scenario.low64) s 2 (Some src))
  = Some [0; 0]%nat /\
  ~ NoDup [0; 0]%nat.
Proof.
  split; [|split; [|split]]; try (vm_compute; reflexivity).
  intros H. inversion H as [|? ? Hin _]. apply Hin. now left.
Qed.

(** C6, amended: for [n >= 1] and every pool, a result of [getWeighted(n)]
    holds at most [n] pairs; each of its peers comes from the pool and
    occurs in the result at most as often as in the pool, so the peers of
    the result are pairwise distinct when those of the pool are, as the
    peers of the list itself are in every state it goes through; every
    trusted peer among them carries the ratio [1].  This holds whatever
    element of its set the [weighted] package returns at each draw, and
    there is a result unless the package throws at one of the draws. *)
Theorem getWeighted_distinct (opts : Options) (resolveA : string -> option (list string))
    (getSecondsPassed : nat -> Z -> Q)
    (weighted : nat -> list ref -> list Q -> option ref)
    (s : State) (n : nat) (sourcePeers : option addr) :
  members weighted ->
  (1 <= n)%nat ->
  (forall res s',
     getWeightedWith opts getSecondsPassed weighted s n sourcePeers = Some (res, s') ->
     (List.length res <= n)%nat /\
     incl (map fst res) (poolOf s sourcePeers) /\
     (forall p, (count_occ Nat.eq_dec (map fst res) p
                 <= count_occ Nat.eq_dec (poolOf s sourcePeers) p)%nat) /\
     (NoDup (poolOf s sourcePeers) -> NoDup (map fst res)) /\
     (sourcePeers = None -> reachable opts resolveA s -> NoDup (map fst res)) /\
     (forall p r, In (p, r) res -> isTrusted (objs s p) = true -> r = Some 1%Q)) /\
  (getWeightedWith opts getSecondsPassed weighted s n sourcePeers = None ->
   throws weighted).
Proof.
  intros Hmem Hn. split; [|apply getWeightedWith_throws].
  intros res s' Hrun.
  destruct (getWeightedWith_run opts getSecondsPassed weighted Hmem s s' n sourcePeers res Hrun)
    as (_ & _ & _ & Hperm & Hlen & Htrust).
  assert (Hnd : NoDup (poolOf s sourcePeers) -> NoDup (map fst res)).
  { intros H. apply (NoDup_app_remove_r _ _ (Permutation_NoDup (Permutation_sym Hperm) H)). }
  split; [|split; [|split; [|split; [|split]]]].
  - rewrite Hlen. destruct (Nat.eqb_spec n 0); lia.
  - intros p Hp. apply (Permutation_in _ Hperm). apply in_or_app. now left.
  - intros p. rewrite <- (proj1 (Permutation_count_occ Nat.eq_dec _ _) Hperm p), count_occ_app.
    apply Nat.le_add_r.
  - exact Hnd.
  - intros -> Hreach. apply Hnd. cbn [poolOf].
    now destruct (reachable_wellFormed opts resolveA s Hreach).
  - exact Htrust.
Qed.

Lemma getWeighted_distinct_witness :
  exists res s',
    getWeightedWith DEFAULT_OPTIONS (Scenario.secondsSince 3600000)
      (weightedDouble Scenario.low64) Scenario.twoPeers 1 None = Some (res, s') /\
    (List.length res <= 1)%nat /\
    NoDup (map fst res).
Proof.
  destruct (getWeighted_distinct DEFAULT_OPTIONS Scenario.noRecord
              (Scenario.secondsSince 3600000) (weightedDouble Scenario.low64)
              Scenario.twoPeers 1 None) as (Hres & _).
  - apply weightedDouble_member.
  - lia.
  - destruct (getWeightedWith DEFAULT_OPTIONS (Scenario.secondsSince 3600000)
                (weightedDouble Scenario.low64) Scenario.twoPeers 1 None)
      as [[res s']|] eqn:E.
    + exists res, s'. split; [reflexivity|].
      destruct (Hres res s' eq_refl) as (Hlen & _ & _ & _ & Hnd & _).
      split; [exact Hlen|]. apply Hnd; [reflexivity|].
      unfold Scenario.twoPeers. apply reach_add, reach_add, reach_new.
    + vm_compute in E. discriminate.
Defined.

Lemma bounded_tiedPeers : bounded Scenario.tiedPeers.
Proof.
  intros p Hp. vm_compute in Hp.
  destruct Hp as [<-|[<-|[]]]; vm_compute; split; discriminate.
Qed.

(** C10, on the code: [getWeighted(0)] is to return every peer of the list.
    Take two peers aged one second whose weights, within [0, MAX_WEIGHT],
    are the doubles [w0 = 1 + 3 * 2^-51] and [w1 = 4 + 2^-49], and let
    [Math.random()] give [1 - 2^-52].  The computed weights are [w0] and
    [w1]; in [weighted] their sum is rounded up to [5 + 2^-48], the key to
    [5 + 3 * 2^-50], the key less [w0] up to [w1], and the key less [w1] is
    [0], which is not below [0]: the package throws, and [getWeighted(0)]
    with it, returning no peer at all.  Computed exactly, the same call
    returns both peers. *)
Theorem getWeighted_zero_throws :
  let age := Scenario.secondsSince 1000 in
  let s := Scenario.tiedPeers in
  let w0 := S754_finite false 4503599627370502 (-52) in
  let w1 := S754_finite false 4503599627370498 (-50) in
  let rand := Scenario.almostOne 0%nat in
  all s = [0; 1]%nat /\
  bounded s /\
  map (fun p => Double.ofQ (getPeerWeight DEFAULT_OPTIONS age s 1 p)) (all s) = [w0; w1] /\
  Double.ltb rand (Double.ofZ 1) = true /\
  Weighted64.total [w0; w1] = S754_finite false 5629499534213124 (-50) /\
  Double.mul rand (Weighted64.total [w0; w1]) = S754_finite false 5629499534213123 (-50) /\
  Double.sub (Double.mul rand (Weighted64.total [w0; w1])) w0 = w1 /\
  Double.sub w1 w1 = Double.zero /\
  Double.ltb Double.zero Double.zero = false /\
  getWeightedWith DEFAULT_OPTIONS age (weightedDouble Scenario.almostOne) s 0 None = None /\
  option_map (fun r => map fst (fst r))
    (getWeighted DEFAULT_OPTIONS age (fun _ => (4503599627370495 # 4503599627370496)%Q) s 0 None)
  = Some [1; 0]%nat.
Proof.
  cbv zeta.
  split; [vm_compute; reflexivity|]. split; [exact bounded_tiedPeers|].
  repeat split; vm_compute; reflexivity.
Qed.

(** * Further properties of the code *)

(** *** [add] and [findByAddress] together *)

Section Lookup.

Variable opts : Options.
Variable resolveA : string -> option (list string).

(** The search reads the ports only under [multiPort]. *)
Lemma findByAddress_ext_ports (s s' : State) (address : string) (port' : Js.num) :
  all s' = all s ->
  (forall p, In p (all s) ->
             hostname (objs s' p) = hostname (objs s p) /\
             ip (objs s' p) = ip (objs s p) /\
             (multiPort opts = true -> port (objs s' p) = port (objs s p))) ->
  findByAddress opts resolveA s' address port' = findByAddress opts resolveA s address port'.
Proof.
  intros Hall Hsame.
  assert (Hfind : forall addr' ip',
             findWithIP opts s' addr' address port' ip'
             = findWithIP opts s addr' address port' ip').
  { intros addr' ip'. unfold findWithIP. rewrite Hall.
    assert (E : filter (sameAddress s' addr' address ip') (all s)
                = filter (sameAddress s addr' address ip') (all s)).
    { apply filter_ext_in. intros p Hp. unfold sameAddress.
      destruct (Hsame p Hp) as (-> & -> & _). reflexivity. }
    rewrite E. destruct (multiPort opts) eqn:Hmp; [|reflexivity].
    apply filter_ext_in. intros p Hp. apply filter_In in Hp as [Hp _].
    destruct (Hsame p Hp) as (_ & _ & Hport). now rewrite Hport. }
  unfold findByAddress. destruct (_ || _ || _); apply Hfind.
Qed.

(** When [add] finds a peer, the list stays as it is and so does what the
    search finds. *)
Lemma add_found (s : State) (h : string) (p t u : Js.value) (tr : bool) (w : Q) (now : Z)
    (existing : ref) (rest : list ref) :
  findByAddress opts resolveA s h (parsedPort p) = existing :: rest ->
  fst (add opts resolveA s h p t u tr w now) = existing /\
  all (snd (add opts resolveA s h p t u tr w now)) = all s /\
  nextObj (snd (add opts resolveA s h p t u tr w now)) = nextObj s /\
  findByAddress opts resolveA (snd (add opts resolveA s h p t u tr w now)) h (parsedPort p)
  = existing :: rest.
Proof.
  intros Hfind. unfold add. rewrite Hfind. unfold addThen.
  destruct (negb (multiPort opts)) eqn:Hmp; cbn [andb].
  - destruct (_ || _ || _); cbn [fst snd].
    + repeat split. rewrite <- Hfind. apply findByAddress_ext_ports; [reflexivity|].
      intros q _. apply negb_true_iff in Hmp.
      destruct (Nat.eq_dec q existing) as [->|Hne].
      * rewrite objs_update_same. repeat split. congruence.
      * rewrite objs_update_other by exact Hne. repeat split.
    + destruct (negb (Qle_bool w (weight (objs s existing)))); cbn [fst snd].
      * repeat split. rewrite <- Hfind. apply findByAddress_ext; [reflexivity|].
        intros q _. destruct (Nat.eq_dec q existing) as [->|Hne].
        -- rewrite objs_update_same. repeat split.
        -- rewrite objs_update_other by exact Hne. repeat split.
      * repeat split. exact Hfind.
  - destruct (negb (Qle_bool w (weight (objs s existing)))); cbn [fst snd].
    + repeat split. rewrite <- Hfind. apply findByAddress_ext; [reflexivity|].
      intros q _. destruct (Nat.eq_dec q existing) as [->|Hne].
      * rewrite objs_update_same. repeat split.
      * rewrite objs_update_other by exact Hne. repeat split.
    + repeat split. exact Hfind.
Qed.

(** When [add] finds nothing, the search afterwards finds the new peer and
    only it, unless [multiPort] compares a port that is [NaN]. *)
Lemma add_new_found (s : State) (h : string) (p t u : Js.value) (tr : bool) (w : Q) (now : Z) :
  allocated s ->
  (multiPort opts = true -> parsedPort p <> Js.NaN) ->
  findByAddress opts resolveA s h (parsedPort p) = [] ->
  findByAddress opts resolveA (snd (add opts resolveA s h p t u tr w now)) h (parsedPort p)
  = [nextObj s].
Proof.
  intros Halloc Hport Hfind.
  destruct (add_new opts resolveA s h p t u tr w now Hfind) as (_ & Hall & Hobj & Hold).
  set (s' := snd (add opts resolveA s h p t u tr w now)) in *.
  assert (Hkeep : forall q, In q (all s) -> objs s' q = objs s q).
  { intros q Hq. apply Hold. specialize (Halloc q Hq). lia. }
  assert (H : forall ip',
             findWithIP opts s (cleanAddress h) h (parsedPort p) ip' = [] ->
             findWithIP opts s' (cleanAddress h) h (parsedPort p) ip' = [nextObj s]).
  { intros ip'. unfold findWithIP. rewrite Hall, filter_app.
    assert (E : filter (sameAddress s' (cleanAddress h) h ip') (all s)
                = filter (sameAddress s (cleanAddress h) h ip') (all s)).
    { apply filter_ext_in. intros q Hq. unfold sameAddress. now rewrite (Hkeep q Hq). }
    assert (En : filter (sameAddress s' (cleanAddress h) h ip') [nextObj s] = [nextObj s]).
    { cbn [filter]. unfold sameAddress. rewrite Hobj. cbn [hostname].
      now rewrite String.eqb_refl. }
    rewrite E, En. intros Hnone.
    destruct (multiPort opts) eqn:Hmp.
    - assert (E2 : filter (fun q => Js.strictEq (port (objs s' q)) (parsedPort p))
                     (filter (sameAddress s (cleanAddress h) h ip') (all s))
                   = filter (fun q => Js.strictEq (port (objs s q)) (parsedPort p))
                       (filter (sameAddress s (cleanAddress h) h ip') (all s))).
      { apply filter_ext_in. intros q Hq. apply filter_In in Hq as [Hq _].
        now rewrite (Hkeep q Hq). }
      rewrite filter_app, E2, Hnone. cbn [filter app]. rewrite Hobj. cbn [port].
      now rewrite (strictEq_refl _ (Hport eq_refl)).
    - now rewrite Hnone. }
  unfold findByAddress in *. destruct (_ || _ || _); now apply H.
Qed.

(** Insert, then look up, DNS answering the same throughout. *)
Lemma add_then_find_same (s : State) (h : string) (p t u : Js.value) (tr tr' : bool)
    (w w' : Q) (now now' : Z) :
  allocated s ->
  (multiPort opts = true -> parsedPort p <> Js.NaN) ->
  let peer := fst (add opts resolveA s h p t u tr w now) in
  let s1 := snd (add opts resolveA s h p t u tr w now) in
  hd_error (findByAddress opts resolveA s1 h (parsedPort p)) = Some peer /\
  fst (add opts resolveA s1 h p t u tr' w' now') = peer /\
  all (snd (add opts resolveA s1 h p t u tr' w' now')) = all s1.
Proof.
  intros Halloc Hport peer s1.
  assert (Hhead : exists rest, findByAddress opts resolveA s1 h (parsedPort p) = peer :: rest).
  { destruct (findByAddress opts resolveA s h (parsedPort p)) as [|existing rest] eqn:Hfind.
    - exists []. unfold s1, peer.
      rewrite (add_new_found s h p t u tr w now Halloc Hport Hfind).
      destruct (add_new opts resolveA s h p t u tr w now Hfind) as (-> & _). reflexivity.
    - exists rest. unfold s1, peer.
      destruct (add_found s h p t u tr w now existing rest Hfind) as (-> & _ & _ & ->).
      reflexivity. }
  destruct Hhead as (rest & Hhead). split; [now rewrite Hhead|].
  destruct (add_found s1 h p t u tr' w' now' peer rest Hhead) as (Hfst & Hall & _).
  split; assumption.
Qed.

(** A peer that [add] has created is found afterwards, whatever DNS
    answers then. *)
Lemma add_new_in (resolveA' : string -> option (list string)) (s : State) (h : string)
    (p t u : Js.value) (tr : bool) (w : Q) (now : Z) :
  (multiPort opts = true -> parsedPort p <> Js.NaN) ->
  findByAddress opts resolveA s h (parsedPort p) = [] ->
  In (fst (add opts resolveA s h p t u tr w now))
     (findByAddress opts resolveA' (snd (add opts resolveA s h p t u tr w now)) h (parsedPort p)).
Proof.
  intros Hport Hfind.
  destruct (add_new opts resolveA s h p t u tr w now Hfind) as (-> & Hall & Hobj & _).
  set (s1 := snd (add opts resolveA s h p t u tr w now)) in *.
  assert (H : forall ip',
             In (nextObj s) (findWithIP opts s1 (cleanAddress h) h (parsedPort p) ip')).
  { intros ip'. unfold findWithIP.
    assert (Hin : In (nextObj s) (filter (sameAddress s1 (cleanAddress h) h ip') (all s1))).
    { apply filter_In. split.
      - rewrite Hall. apply in_or_app. right. now left.
      - unfold sameAddress. rewrite Hobj. cbn [hostname]. now rewrite String.eqb_refl. }
    destruct (multiPort opts) eqn:Hmp; [|exact Hin].
    apply filter_In. split; [exact Hin|]. rewrite Hobj. cbn [port].
    apply strictEq_refl. now apply Hport. }
  unfold findByAddress. destruct (_ || _ || _); apply H.
Qed.

End Lookup.

(** The search takes from DNS the first record for the cleaned address,
    and asks only when that is no IP literal and [multiPort] is off. *)
Lemma findByAddress_sameLookup (opts : Options)
    (resolveA resolveA' : string -> option (list string)) (s : State)
    (address : string) (port' : Js.num) :
  sameLookup opts resolveA resolveA' address ->
  findByAddress opts resolveA' s address port' = findByAddress opts resolveA s address port'.
Proof.
  unfold sameLookup, isLiteral, firstRecord, findByAddress. intros H.
  destruct (Ip.isV6Format (cleanAddress address)); [reflexivity|].
  destruct (Ip.isV4Format (cleanAddress address)); [reflexivity|].
  destruct (multiPort opts); [reflexivity|]. cbn [orb].
  destruct H as [H | [H | H]]; try discriminate. now rewrite H.
Qed.

Lemma add_sameLookup (opts : Options)
    (resolveA resolveA' : string -> option (list string)) (s : State)
    (h : string) (p t u : Js.value) (tr : bool) (w : Q) (now : Z) :
  sameLookup opts resolveA resolveA' h ->
  add opts resolveA' s h p t u tr w now = add opts resolveA s h p t u tr w now.
Proof.
  intros H. unfold add. now rewrite (findByAddress_sameLookup opts resolveA resolveA').
Qed.

(** X1: insert, then look up.  Every call asks DNS anew: [resolveA] is
    what it answers to [add], [resolveA'] what it answers afterwards.  When
    both give the same first record for the address, or DNS is not asked
    (the cleaned address is an IP literal, or [multiPort] is set), then
    after [add] the search for the same address and port finds the peer
    that [add] returned, and finds it first, and a second [add] with the same
    address and ports returns that peer again and leaves the list as it is.
    A peer that [add] has created is found whatever DNS answers afterwards.
    Under [multiPort] this needs a port that parses. *)
Theorem add_then_find (opts : Options) (resolveA resolveA' : string -> option (list string))
    (s : State) (h : string) (p t u : Js.value) (tr tr' : bool) (w w' : Q) (now now' : Z) :
  allocated s ->
  (multiPort opts = true -> parsedPort p <> Js.NaN) ->
  let peer := fst (add opts resolveA s h p t u tr w now) in
  let s1 := snd (add opts resolveA s h p t u tr w now) in
  (sameLookup opts resolveA resolveA' h ->
   hd_error (findByAddress opts resolveA' s1 h (parsedPort p)) = Some peer /\
   fst (add opts resolveA' s1 h p t u tr' w' now') = peer /\
   all (snd (add opts resolveA' s1 h p t u tr' w' now')) = all s1) /\
  (findByAddress opts resolveA s h (parsedPort p) = [] ->
   In peer (findByAddress opts resolveA' s1 h (parsedPort p))).
Proof.
  intros Halloc Hport peer s1. split.
  - intros Hsame.
    rewrite (findByAddress_sameLookup opts resolveA resolveA' s1 h (parsedPort p) Hsame).
    rewrite (add_sameLookup opts resolveA resolveA' s1 h p t u tr' w' now' Hsame).
    exact (add_then_find_same opts resolveA s h p t u tr tr' w w' now now' Halloc Hport).
  - intros Hfind. exact (add_new_in opts resolveA resolveA' s h p t u tr w now Hport Hfind).
Qed.

Lemma add_then_find_witness :
  let a := add DEFAULT_OPTIONS Scenario.noRecord Scenario.twoPeers "c.example"
             Scenario.port16600 Js.VUndefined Js.VUndefined false 1%Q 0%Z in
  hd_error (findByAddress DEFAULT_OPTIONS Scenario.emptyAnswer (snd a) "c.example"
              (parsedPort Scenario.port16600)) = Some (fst a) /\
  In (fst a) (findByAddress DEFAULT_OPTIONS Scenario.oneRecord (snd a) "c.example"
                (parsedPort Scenario.port16600)).
Proof.
  assert (Halloc : allocated Scenario.twoPeers).
  { intros q Hq. vm_compute in Hq. destruct Hq as [<-|[<-|[]]]; vm_compute; lia. }
  assert (Hport : multiPort DEFAULT_OPTIONS = true -> parsedPort Scenario.port16600 <> Js.NaN)
    by discriminate.
  pose proof (add_then_find DEFAULT_OPTIONS Scenario.noRecord Scenario.emptyAnswer
                Scenario.twoPeers "c.example" Scenario.port16600 Js.VUndefined Js.VUndefined
                false true 1%Q 2%Q 0%Z 5%Z Halloc Hport) as H1.
  pose proof (add_then_find DEFAULT_OPTIONS Scenario.noRecord Scenario.oneRecord
                Scenario.twoPeers "c.example" Scenario.port16600 Js.VUndefined Js.VUndefined
                false true 1%Q 2%Q 0%Z 5%Z Halloc Hport) as H2.
  cbv zeta in *. split.
  - apply (proj1 H1). right; right. reflexivity.
  - apply (proj2 H2). vm_compute. reflexivity.
Defined.


(** X2: what [add] never does.  It removes and reorders no peer, appending
    at most one; of a peer already in the list it changes neither the host
    name, the address, the trust bit, the dates nor the counters, and it
    never lowers the weight. *)
Theorem add_keeps_peers (opts : Options) (resolveA : string -> option (list string))
    (s : State) (h : string) (p t u : Js.value) (tr : bool) (w : Q) (now : Z) :
  allocated s ->
  (all (snd (add opts resolveA s h p t u tr w now)) = all s \/
   all (snd (add opts resolveA s h p t u tr w now)) = (all s ++ [nextObj s])%list) /\
  forall q, In q (all s) ->
    hostname (objs (snd (add opts resolveA s h p t u tr w now)) q) = hostname (objs s q) /\
    ip (objs (snd (add opts resolveA s h p t u tr w now)) q) = ip (objs s q) /\
    isTrusted (objs (snd (add opts resolveA s h p t u tr w now)) q) = isTrusted (objs s q) /\
    dateCreated (objs (snd (add opts resolveA s h p t u tr w now)) q)
    = dateCreated (objs s q) /\
    dateLastConnected (objs (snd (add opts resolveA s h p t u tr w now)) q)
    = dateLastConnected (objs s q) /\
    connected (objs (snd (add opts resolveA s h p t u tr w now)) q) = connected (objs s q) /\
    tried (objs (snd (add opts resolveA s h p t u tr w now)) q) = tried (objs s q) /\
    (weight (objs s q) <= weight (objs (snd (add opts resolveA s h p t u tr w now)) q))%Q.
Proof.
  intros Halloc.
  destruct (findByAddress opts resolveA s h (parsedPort p)) as [|existing rest] eqn:Hfind.
  - destruct (add_new opts resolveA s h p t u tr w now Hfind) as (_ & Hall & _ & Hold).
    split; [now right|]. intros q Hq.
    rewrite Hold by (specialize (Halloc q Hq); lia).
    repeat split. apply Qle_refl.
  - unfold add. rewrite Hfind. unfold addThen.
    destruct (negb (multiPort opts) && _); cbn [snd].
    + split; [now left|]. intros q _. destruct (Nat.eq_dec q existing) as [->|Hne].
      * rewrite objs_update_same. cbn. repeat split. apply Qle_refl.
      * rewrite objs_update_other by exact Hne. repeat split. apply Qle_refl.
    + destruct (negb (Qle_bool w (weight (objs s existing)))) eqn:Hw; cbn [snd].
      * split; [now left|]. intros q _. destruct (Nat.eq_dec q existing) as [->|Hne].
        -- rewrite objs_update_same. cbn. repeat split.
           apply negb_true_iff in Hw.
           destruct (Qlt_le_dec (weight (objs s existing)) w) as [Hlt|Hle].
           ++ now apply Qlt_le_weak.
           ++ apply Qle_bool_iff in Hle. congruence.
        -- rewrite objs_update_other by exact Hne. repeat split. apply Qle_refl.
      * split; [now left|]. intros q _. repeat split. apply Qle_refl.
Qed.

Lemma add_keeps_peers_witness :
  isTrusted (objs (snd (add DEFAULT_OPTIONS Scenario.noRecord Scenario.twoPeers "a.example"
                          Scenario.port16600 Js.VUndefined Js.VUndefined true 1%Q 9%Z)) 0%nat)
  = isTrusted (objs Scenario.twoPeers 0%nat).
Proof.
  destruct (add_keeps_peers DEFAULT_OPTIONS Scenario.noRecord Scenario.twoPeers "a.example"
              Scenario.port16600 Js.VUndefined Js.VUndefined true 1%Q 9%Z) as (_ & H).
  - intros q Hq. vm_compute in Hq. destruct Hq as [<-|[<-|[]]]; vm_compute; lia.
  - destruct (H 0%nat) as (_ & _ & Ht & _).
    + vm_compute. now left.
    + exact Ht.
Defined.

(** *** [markConnected] *)



(** *** [findByAddress] *)

(** X4: what [findByAddress] returns.  Every peer found is in the list
    and, under [multiPort], has the port asked for; a peer of the list
    whose host name is the address, as given or cleaned, is found (under
    [multiPort], when it has the port); and for an address that is an IP
    literal once cleaned, or under [multiPort], the resolver is not
    consulted. *)
Theorem findByAddress_results (opts : Options) (resolveA : string -> option (list string))
    (s : State) (address : string) (port' : Js.num) :
  (forall q, In q (findByAddress opts resolveA s address port') ->
             In q (all s) /\
             (multiPort opts = true -> Js.strictEq (port (objs s q)) port' = true)) /\
  (forall q, In q (all s) ->
             hostname (objs s q) = cleanAddress address \/ hostname (objs s q) = address ->
             (multiPort opts = true -> Js.strictEq (port (objs s q)) port' = true) ->
             In q (findByAddress opts resolveA s address port')) /\
  (isLiteral (cleanAddress address) = true \/ multiPort opts = true ->
   forall resolveA',
     findByAddress opts resolveA' s address port' = findByAddress opts resolveA s address port').
Proof.
  split; [|split].
  - intros q Hq. split; [now apply (findByAddress_incl opts resolveA s address port')|].
    intros Hmp. unfold findByAddress, findWithIP in Hq. rewrite Hmp in Hq.
    destruct (_ || _ || _); now apply filter_In in Hq as [_ Hq].
  - intros q Hin Hhost Hport.
    assert (H : forall ip', In q (findWithIP opts s (cleanAddress address) address port' ip')).
    { intros ip'. unfold findWithIP.
      assert (Hf : In q (filter (sameAddress s (cleanAddress address) address ip') (all s))).
      { apply filter_In. split; [exact Hin|]. unfold sameAddress.
        destruct Hhost as [-> | ->]; rewrite String.eqb_refl; [reflexivity|].
        now rewrite orb_true_r. }
      destruct (multiPort opts); [|exact Hf].
      apply filter_In. split; [exact Hf | now apply Hport]. }
    unfold findByAddress. destruct (_ || _ || _); apply H.
  - intros Hlit resolveA'. unfold findByAddress.
    assert (E : Ip.isV6Format (cleanAddress address) || Ip.isV4Format (cleanAddress address)
                || multiPort opts = true).
    { destruct Hlit as [Hl | ->]; [|apply orb_true_r].
      unfold isLiteral in Hl. apply orb_true_iff in Hl as [-> | ->];
        [rewrite orb_true_r | ]; reflexivity. }
    now rewrite E.
Qed.

Lemma findByAddress_results_witness :
  In 1%nat (findByAddress DEFAULT_OPTIONS Scenario.noRecord Scenario.twoPeers "b.example"
              Js.NaN).
Proof.
  apply (proj1 (proj2 (findByAddress_results DEFAULT_OPTIONS Scenario.noRecord
                         Scenario.twoPeers "b.example" Js.NaN))).
  - vm_compute. right. now left.
  - vm_compute. now left.
  - discriminate.
Defined.

(** *** [clear] *)

(** X5: after [clear] the list is empty, no address is found and
    [getWeighted] returns nothing, while the array that [all()] returned
    before still holds its peers, and no peer has changed. *)
Theorem clear_effect (opts : Options) (resolveA : string -> option (list string))
    (getSecondsPassed : nat -> Z -> Q) (random : nat -> Q) (s : State) :
  (peers s < nextArr s)%nat ->
  all (clear s) = [] /\
  (forall address port', findByAddress opts resolveA (clear s) address port' = []) /\
  (forall amount,
      option_map fst (getWeighted opts getSecondsPassed random (clear s) amount None)
      = Some []) /\
  arrs (clear s) (peers s) = all s /\
  objs (clear s) = objs s.
Proof.
  intros Hwf.
  assert (Hall : all (clear s) = []).
  { unfold clear, all. cbn. unfold upd. now rewrite Nat.eqb_refl. }
  split; [exact Hall|]. split; [|split; [|split]].
  - intros address port'. unfold findByAddress, findWithIP. rewrite Hall. cbn [filter].
    destruct (_ || _ || _); destruct (multiPort opts); reflexivity.
  - intros amount. unfold getWeighted. rewrite Hall. cbn [newArray].
    cbn [arrs]. unfold upd at 2. rewrite Nat.eqb_refl. reflexivity.
  - unfold clear, all. cbn. unfold upd.
    destruct (Nat.eqb_spec (peers s) (nextArr s)); [lia | reflexivity].
  - reflexivity.
Qed.

Lemma clear_effect_witness :
  all (clear Scenario.twoPeers) = [] /\
  arrs (clear Scenario.twoPeers) (peers Scenario.twoPeers) = all Scenario.twoPeers.
Proof.
  destruct (clear_effect DEFAULT_OPTIONS Scenario.noRecord (Scenario.secondsSince 0)
              Scenario.low Scenario.twoPeers) as (H1 & _ & _ & H2 & _).
  - vm_compute. lia.
  - split; [exact H1 | exact H2].
Defined.

(** *** [getWeighted]: how many pairs *)

(** X6: how many pairs.  A result of [getWeighted(amount, source)] holds
    exactly as many pairs as the smaller of the amount and the size of the
    pool, the amount [0] standing for the number of peers of the list, also
    when a source array is given; when this amount is at least the size of
    the pool, as for [getWeighted(0)] without a source, the peers of the
    result are those of the pool, each as often as the pool holds it.  This
    holds whatever element of its set the [weighted] package returns at
    each draw.  There is a result unless the package throws at one of the
    draws, and there is none when it throws at the first. *)
Theorem getWeighted_count (opts : Options) (getSecondsPassed : nat -> Z -> Q)
    (weighted : nat -> list ref -> list Q -> option ref)
    (s : State) (amount : nat) (sourcePeers : option addr) :
  members weighted ->
  (forall res s',
     getWeightedWith opts getSecondsPassed weighted s amount sourcePeers = Some (res, s') ->
     List.length res =
       Nat.min (if Nat.eqb amount 0 then List.length (all s) else amount)
               (List.length (poolOf s sourcePeers)) /\
     ((List.length (poolOf s sourcePeers)
       <= (if Nat.eqb amount 0 then List.length (all s) else amount))%nat ->
      Permutation (map fst res) (poolOf s sourcePeers))) /\
  (getWeightedWith opts getSecondsPassed weighted s amount sourcePeers = None ->
   throws weighted) /\
  (poolOf s sourcePeers <> [] ->
   (if Nat.eqb amount 0 then List.length (all s) else amount) <> 0%nat ->
   weighted 0 (poolOf s sourcePeers)
     (map (getPeerWeight opts getSecondsPassed s 1) (poolOf s sourcePeers)) = None ->
   getWeightedWith opts getSecondsPassed weighted s amount sourcePeers = None).
Proof.
  intros Hmem.
  split; [|split; [apply getWeightedWith_throws | apply getWeightedWith_first_draw]].
  intros res s' Hrun.
  destruct (getWeightedWith_run opts getSecondsPassed weighted Hmem s s' amount sourcePeers
              res Hrun) as (_ & _ & _ & Hperm & Hlen & _).
  split; [exact Hlen|]. intros Hall.
  set (a := match sourcePeers with Some src => src | None => nextArr s end) in *.
  assert (E : arrs s' a = []).
  { apply length_zero_iff_nil. apply Permutation_length in Hperm.
    rewrite length_app, length_map in Hperm. lia. }
  rewrite E, app_nil_r in Hperm. exact Hperm.
Qed.

Lemma getWeighted_count_witness :
  exists res s',
    getWeightedWith DEFAULT_OPTIONS (Scenario.secondsSince 3600000)
      (weightedDouble Scenario.low64) Scenario.twoPeers 5 None = Some (res, s') /\
    List.length res = 2%nat /\
    Permutation (map fst res) [0; 1]%nat.
Proof.
  destruct (getWeighted_count DEFAULT_OPTIONS (Scenario.secondsSince 3600000)
              (weightedDouble Scenario.low64) Scenario.twoPeers 5 None) as (Hres & _).
  - apply weightedDouble_member.
  - destruct (getWeightedWith DEFAULT_OPTIONS (Scenario.secondsSince 3600000)
                (weightedDouble Scenario.low64) Scenario.twoPeers 5 None)
      as [[res s']|] eqn:E.
    + exists res, s'. split; [reflexivity|].
      destruct (Hres res s' eq_refl) as (Hlen & Hperm).
      split; [exact Hlen|]. apply Hperm. vm_compute. lia.
    + vm_compute in E. discriminate.
Defined.

(** *** [getPeerWeight] *)



(** *** [loadDefaults] *)

(** X9: on a list without peers, [loadDefaults] of one URI
    [hostname/port/TCPPort/UDPPort] leaves exactly one peer: trusted, of
    weight [1], created now, never connected, its host name the cleaned
    first token and its port the second token parsed; a TCP or UDP port
    that is missing, [0] or unparseable is replaced by the default. *)
Theorem loadDefaults_one (opts : Options) (resolveA : string -> option (list string))
    (uri : string) (now : Z) :
  let tokens := split "/" uri in
  let s := loadDefaults opts resolveA initial [uri] now in
  all s = [0%nat] /\
  hostname (objs s 0%nat) = cleanAddress (hd "" tokens) /\
  port (objs s 0%nat) = Js.parseInt (token tokens 1) /\
  TCPPort (objs s 0%nat)
  = (if Js.truthyNum (parsedTCPPort (token tokens 2)) then parsedTCPPort (token tokens 2)
     else Js.Int DEFAULT_TCPPort) /\
  UDPPort (objs s 0%nat)
  = (if Js.truthyNum (parsedUDPPort (token tokens 3)) then parsedUDPPort (token tokens 3)
     else Js.Int DEFAULT_UDPPort) /\
  TCPPort (objs s 0%nat) <> Js.NaN /\ TCPPort (objs s 0%nat) <> Js.Int 0 /\
  isTrusted (objs s 0%nat) = true /\
  weight (objs s 0%nat) = 1%Q /\
  dateCreated (objs s 0%nat) = now /\
  dateLastConnected (objs s 0%nat) = None /\
  connected (objs s 0%nat) = 0%Z /\
  tried (objs s 0%nat) = 0%Z.
Proof.
  intros tokens s. unfold s. cbn [loadDefaults]. fold tokens.
  destruct (add_new opts resolveA initial (hd "" tokens) (token tokens 1) (token tokens 2)
              (token tokens 3) true 1%Q now) as (_ & Hall & Hobj & _).
  { unfold findByAddress, findWithIP. cbn [all initial arrs peers filter].
    destruct (_ || _ || _); destruct (multiPort opts); reflexivity. }
  change (nextObj initial) with 0%nat in *. rewrite Hobj. cbn.
  split; [exact Hall|]. repeat split.
  - destruct (parsedTCPPort (token tokens 2)) as [|z]; cbn; [discriminate|].
    destruct (Z.eqb z 0); discriminate.
  - destruct (parsedTCPPort (token tokens 2)) as [|z]; cbn; [discriminate|].
    destruct (Z.eqb_spec z 0); cbn; [discriminate | congruence].
Qed.

(** *** [cleanAddress] on dotted quads *)

(** X11: a dotted quad is rewritten to [localhost] when it is in a private
    range and is left as it is otherwise, and cleaning it twice is cleaning
    it once. *)
Theorem cleanAddress_dotted_quad (x : string) :
  Ip.isV4Format x = true ->
  cleanAddress x = (if Ip.isPrivate x then "localhost" else x) /\
  cleanAddress (cleanAddress x) = cleanAddress x.
Proof.
  intros H4. pose proof (isV4Format_no_prefix x H4) as Hno.
  assert (E : cleanAddress x = if Ip.isPrivate x then "localhost" else x).
  { unfold cleanAddress. rewrite H4. cbn [negb andb].
    destruct (Ip.isPrivate x); [reflexivity | now apply replace_absent]. }
  split; [exact E|]. rewrite E. destruct (Ip.isPrivate x) eqn:Hp.
  - exact cleanAddress_localhost.
  - rewrite E; try rewrite Hp; reflexivity.
Qed.

Lemma cleanAddress_dotted_quad_witness :
  cleanAddress "93.184.216.34" = "93.184.216.34" /\
  cleanAddress (cleanAddress "93.184.216.34") = cleanAddress "93.184.216.34".
Proof.
  apply (cleanAddress_dotted_quad "93.184.216.34"). vm_compute. reflexivity.
Defined.

(** *** The IRI client: [start], [_tick], [end] and the requests *)

Lemma start_skips_errors (getIP : string -> option string) (iri : IRI.State)
    (errors later : list (option (list IRI.Neighbor))) :
  Forall (fun a => a = None) errors ->
  IRI.start getIP iri (errors ++ later) = IRI.start getIP iri later.
Proof.
  induction 1 as [|a errors -> _ IH]; [reflexivity | exact IH].
Qed.

(** A peer whose host name is the host of a neighbor of the first answer
    is static for [isStaticNeighbor]. *)
Lemma start_isStaticNeighbor (getIP : string -> option string) (iri : IRI.State)
    (neighbors : list IRI.Neighbor) (later : list (option (list IRI.Neighbor)))
    (n : IRI.Neighbor) (peer : PeerData) :
  In n neighbors ->
  hostname peer = Js.splitHead ":" (IRI.address n) ->
  IRI.isStaticNeighbor (IRI.start getIP iri (Some neighbors :: later)) peer = true.
Proof.
  intros Hn Hhost. cbn [IRI.start].
  set (addresses := map (fun m => Js.splitHead ":" (IRI.address m)) neighbors).
  unfold IRI.isStaticNeighbor. cbn [IRI.staticNeighbors].
  apply negb_true_iff, Nat.eqb_neq. intros Hlen.
  apply length_zero_iff_nil in Hlen.
  assert (Hf : In (Some (Js.splitHead ":" (IRI.address n)))
                  (filter (fun m => match m with
                                    | Some x =>
                                        match ip peer with
                                        | Some i => String.eqb x i
                                        | None => false
                                        end || String.eqb x (hostname peer)
                                    | None =>
                                        match ip peer with
                                        | Some _ => false
                                        | None => true
                                        end
                                    end)
                          (map getIP addresses ++ map Some addresses))).
  { apply filter_In. split.
    - apply in_or_app. right. apply in_map. unfold addresses.
      now apply (in_map (fun m => Js.splitHead ":" (IRI.address m))).
    - rewrite Hhost, String.eqb_refl. apply orb_true_r. }
  rewrite Hlen in Hf. contradiction.
Qed.

(** X12: [start] goes on asking while [getNeighbors] fails and leaves the
    client as it was when every answer is an error; the first answer
    without error makes the client available and fixes the static
    neighbors, whatever the client held and whatever is answered later;
    every neighbor of that answer is then static, and so is, for
    [isStaticNeighbor], a peer whose host name is the host of one of them. *)
Theorem start_first_answer (getIP : string -> option string) (iri : IRI.State)
    (errors : list (option (list IRI.Neighbor))) :
  Forall (fun a => a = None) errors ->
  IRI.start getIP iri errors = iri /\
  forall neighbors later,
    IRI.start getIP iri (errors ++ Some neighbors :: later)
    = IRI.start getIP IRI.created [Some neighbors] /\
    IRI.isAvailable (IRI.start getIP iri (errors ++ Some neighbors :: later)) = true /\
    (forall n, In n neighbors ->
       IRI.isStatic (IRI.start getIP iri (errors ++ Some neighbors :: later)) n = true) /\
    (forall n peer, In n neighbors ->
       hostname peer = Js.splitHead ":" (IRI.address n) ->
       IRI.isStaticNeighbor (IRI.start getIP iri (errors ++ Some neighbors :: later)) peer
       = true).
Proof.
  intros Herr. split.
  - rewrite <- (app_nil_r errors), start_skips_errors by exact Herr. reflexivity.
  - intros neighbors later. rewrite start_skips_errors by exact Herr.
    cbn [IRI.start]. split; [reflexivity|]. split; [reflexivity|].
    set (addresses := map (fun n => Js.splitHead ":" (IRI.address n)) neighbors).
    assert (Hin : forall n, In n neighbors ->
                            In (Some (Js.splitHead ":" (IRI.address n)))
                               (map getIP addresses ++ map Some addresses)).
    { intros n Hn. apply in_or_app. right. apply in_map. unfold addresses.
      now apply (in_map (fun m => Js.splitHead ":" (IRI.address m))). }
    split.
    + intros n Hn. unfold IRI.isStatic, IRI.includes. cbn [IRI.staticNeighbors].
      apply existsb_exists. exists (Some (Js.splitHead ":" (IRI.address n))).
      split; [now apply Hin | apply String.eqb_refl].
    + intros n peer Hn Hhost.
      exact (start_isStaticNeighbor getIP iri neighbors later n peer Hn Hhost).
Qed.

Lemma start_first_answer_witness :
  IRI.start (fun h => Some h) IRI.created
    [None; None; Some [{| IRI.address := "10.1.1.1:14600"; IRI.connectionType := "udp" |}]]
  = IRI.start (fun h => Some h) IRI.created
      [Some [{| IRI.address := "10.1.1.1:14600"; IRI.connectionType := "udp" |}]].
Proof.
  apply (proj2 (start_first_answer (fun h => Some h) IRI.created [None; None]
                  (Forall_cons _ eq_refl (Forall_cons _ eq_refl (Forall_nil _))))
           [{| IRI.address := "10.1.1.1:14600"; IRI.connectionType := "udp" |}] []).
Defined.

(** X13: while the client is not available, and so after a health check
    that failed or after [end], the four methods that talk to the ledger
    reject without making any request; a health check that succeeds makes
    a started client available again, with the static neighbors it had. *)
Theorem requests_follow_health (getUDPURI : PeerData -> string) (iri : IRI.State)
    (peers : list PeerData) (answer : option (list IRI.Neighbor)) (err : bool) :
  (IRI.isAvailable iri = false ->
   IRICalls.removeNeighbors getUDPURI iri peers err
   = {| IRICalls.calls := []; IRICalls.settled := IRICalls.Rejected |} /\
   IRICalls.addNeighbors getUDPURI iri peers err
   = {| IRICalls.calls := []; IRICalls.settled := IRICalls.Rejected |} /\
   IRICalls.updateNeighbors getUDPURI iri peers answer err
   = {| IRICalls.calls := []; IRICalls.settled := IRICalls.Rejected |} /\
   IRI.removeAllNeighbors iri answer = IRI.Rejected) /\
  IRI.isAvailable (fst (IRICalls._tick iri None)) = false /\
  IRI.isAvailable (IRICalls.end_ iri) = false /\
  (forall neighbors,
      IRI.isAvailable (fst (IRICalls._tick iri (Some neighbors))) = IRI.isStarted iri /\
      snd (IRICalls._tick iri (Some neighbors))
      = (true, Some (map (fun n => Js.splitHead ":" (IRI.address n)) neighbors))) /\
  IRI.staticNeighbors (fst (IRICalls._tick iri answer)) = IRI.staticNeighbors iri /\
  IRI.isStarted (fst (IRICalls._tick iri answer)) = IRI.isStarted iri.
Proof.
  split; [|split; [|split; [|split; [|split]]]].
  - intros H. unfold IRICalls.removeNeighbors, IRICalls.addNeighbors,
      IRICalls.updateNeighbors, IRI.removeAllNeighbors. rewrite H. repeat split.
  - unfold IRI.isAvailable. cbn. apply andb_false_r.
  - reflexivity.
  - intros neighbors. unfold IRI.isAvailable, IRI.isStarted. cbn.
    split; [apply andb_true_r | reflexivity].
  - destruct answer; reflexivity.
  - destruct answer; reflexivity.
Qed.

Lemma requests_follow_health_witness :
  IRI.removeAllNeighbors IRI.created None = IRI.Rejected.
Proof.
  apply (requests_follow_health (fun p => hostname p) IRI.created [] None false).
  reflexivity.
Defined.

(** X14: [removeNeighbors] asks the ledger to remove only peers that
    [isStaticNeighbor] does not know: every URI it names is that of a peer
    given to it that is not static, so after [start] none is a peer whose
    host name is the host of a neighbor reported then.  Given no peer it
    makes no request; given static peers only it still makes one, for no
    URI. *)
Theorem removeNeighbors_spares_static (getUDPURI : PeerData -> string)
    (getIP : string -> option string) (iri : IRI.State) (peers : list PeerData) (err : bool) :
  IRI.isAvailable iri = true ->
  (forall uris u,
      In (IRICalls.RemoveNeighbors uris)
         (IRICalls.calls (IRICalls.removeNeighbors getUDPURI iri peers err)) ->
      In u uris ->
      exists q, In q peers /\ getUDPURI q = u /\ IRI.isStaticNeighbor iri q = false) /\
  (forall neighbors uris u,
      iri = IRI.start getIP IRI.created [Some neighbors] ->
      In (IRICalls.RemoveNeighbors uris)
         (IRICalls.calls (IRICalls.removeNeighbors getUDPURI iri peers err)) ->
      In u uris ->
      exists q, In q peers /\ getUDPURI q = u /\
                forall n, In n neighbors -> hostname q <> Js.splitHead ":" (IRI.address n)) /\
  (peers = [] ->
   IRICalls.removeNeighbors getUDPURI iri peers err
   = {| IRICalls.calls := []; IRICalls.settled := IRICalls.Resolved [] |}) /\
  (peers <> [] ->
   (forall q, In q peers -> IRI.isStaticNeighbor iri q = true) ->
   IRICalls.calls (IRICalls.removeNeighbors getUDPURI iri peers err)
   = [IRICalls.RemoveNeighbors []]).
Proof.
  intros Hav.
  assert (Hurls : forall uris u,
             In (IRICalls.RemoveNeighbors uris)
                (IRICalls.calls (IRICalls.removeNeighbors getUDPURI iri peers err)) ->
             In u uris ->
             exists q, In q peers /\ getUDPURI q = u /\ IRI.isStaticNeighbor iri q = false).
  { intros uris u Hcall Hu. unfold IRICalls.removeNeighbors in Hcall. rewrite Hav in Hcall.
    cbv zeta in Hcall.
    set (kept := filter (fun peer => negb (IRI.isStaticNeighbor iri peer)) peers) in Hcall.
    assert (Hkept : forall q, In q kept ->
                              In q peers /\ IRI.isStaticNeighbor iri q = false).
    { intros q Hq. apply filter_In in Hq as [Hq Hns]. split; [exact Hq|].
      now apply negb_true_iff. }
    clearbody kept. destruct peers as [|p0 ps]; [destruct Hcall|].
    destruct Hcall as [E|[]]. injection E as <-.
    apply in_map_iff in Hu as (q & Hq & Hin). destruct (Hkept q Hin) as [Hp Hns].
    exists q. split; [exact Hp|]. split; [exact Hq | exact Hns]. }
  split; [exact Hurls|]. split; [|split].
  - intros neighbors uris u Hiri Hcall Hu.
    destruct (Hurls uris u Hcall Hu) as (q & Hq & Hu' & Hns).
    exists q. split; [exact Hq|]. split; [exact Hu'|].
    intros n Hn Hhost.
    pose proof (start_isStaticNeighbor getIP IRI.created neighbors [] n q Hn Hhost)
      as Hstatic.
    rewrite <- Hiri in Hstatic. rewrite Hstatic in Hns. discriminate.
  - intros ->. unfold IRICalls.removeNeighbors. now rewrite Hav.
  - intros Hne Hall. unfold IRICalls.removeNeighbors. rewrite Hav. cbn [negb].
    destruct peers as [|p0 ps]; [congruence|]. cbn [IRICalls.calls]. do 2 f_equal.
    assert (E : forall l, (forall q, In q l -> IRI.isStaticNeighbor iri q = true) ->
                          filter (fun peer => negb (IRI.isStaticNeighbor iri peer)) l = []).
    { induction l as [|q l IH]; intros Hl; [reflexivity|].
      cbn [filter]. rewrite (Hl q) by now left. cbn [negb]. apply IH.
      intros r Hr. apply Hl. now right. }
    now rewrite (E (p0 :: ps) Hall).
Qed.

Lemma removeNeighbors_spares_static_witness :
  let iri := IRI.start (fun h => Some h) IRI.created
               [Some [{| IRI.address := "10.1.1.1:14600"; IRI.connectionType := "udp" |}]] in
  IRICalls.calls (IRICalls.removeNeighbors (fun p => hostname p) iri
                    [Scenario.peerAt "10.1.1.1"] false)
  = [IRICalls.RemoveNeighbors []].
Proof.
  apply (proj2 (proj2 (proj2
           (removeNeighbors_spares_static (fun p => hostname p) (fun h => Some h)
              (IRI.start (fun h => Some h) IRI.created
                 [Some [{| IRI.address := "10.1.1.1:14600"; IRI.connectionType := "udp" |}]])
              [Scenario.peerAt "10.1.1.1"] false eq_refl)))).
  - discriminate.
  - intros q [<-|[]]. vm_compute. reflexivity.
Defined.

(** X15: [updateNeighbors], the client being available.  Given no peer it
    makes no request at all, so the neighbors of the ledger stay; given
    peers, it asks for the neighbors and rejects when that fails;
    otherwise it asks the ledger to remove every neighbor reported, a
    static one like any other, unless none is reported, and then to add
    the peers, and it settles as the addition does, without regard to the
    removal. *)
Theorem updateNeighbors_requests (getUDPURI : PeerData -> string) (iri : IRI.State)
    (peers : list PeerData) (err : bool) :
  IRI.isAvailable iri = true ->
  (peers = [] ->
   forall answer,
     IRICalls.updateNeighbors getUDPURI iri peers answer err
     = {| IRICalls.calls := []; IRICalls.settled := IRICalls.Resolved [] |}) /\
  (peers <> [] ->
   IRICalls.updateNeighbors getUDPURI iri peers None err
   = {| IRICalls.calls := [IRICalls.GetNeighbors]; IRICalls.settled := IRICalls.Rejected |} /\
   IRICalls.updateNeighbors getUDPURI iri peers (Some []) err
   = {| IRICalls.calls := [IRICalls.GetNeighbors;
                           IRICalls.AddNeighbors (map getUDPURI peers)];
        IRICalls.settled := if err then IRICalls.Rejected else IRICalls.Resolved peers |} /\
   forall n neighbors,
     IRICalls.updateNeighbors getUDPURI iri peers (Some (n :: neighbors)) err
     = {| IRICalls.calls := [IRICalls.GetNeighbors;
                             IRICalls.RemoveNeighbors (map IRI.uri (n :: neighbors));
                             IRICalls.AddNeighbors (map getUDPURI peers)];
          IRICalls.settled := if err then IRICalls.Rejected else IRICalls.Resolved peers |} /\
     (forall m, In m (n :: neighbors) -> IRI.isStatic iri m = true ->
                In (IRI.uri m) (map IRI.uri (n :: neighbors)))).
Proof.
  intros Hav. split.
  - intros -> answer. unfold IRICalls.updateNeighbors. now rewrite Hav.
  - intros Hne. unfold IRICalls.updateNeighbors, IRICalls.addNeighbors. rewrite Hav.
    cbn [negb]. destruct peers as [|p0 ps]; [congruence|].
    split; [reflexivity|]. split; [reflexivity|].
    intros n neighbors. split; [reflexivity|].
    intros m Hm _. now apply in_map.
Qed.

Lemma updateNeighbors_requests_witness :
  let X := {| IRI.address := "10.1.1.1:14600"; IRI.connectionType := "udp" |} in
  let iri := IRI.start (fun h => Some h) IRI.created [Some [X]] in
  IRICalls.updateNeighbors (fun p => hostname p) iri [Scenario.peerAt "20.2.2.2"]
    (Some [X]) false
  = {| IRICalls.calls := [IRICalls.GetNeighbors;
                          IRICalls.RemoveNeighbors ["udp://10.1.1.1:14600"];
                          IRICalls.AddNeighbors ["20.2.2.2"]];
       IRICalls.settled := IRICalls.Resolved [Scenario.peerAt "20.2.2.2"] |}.
Proof.
  intros X iri.
  destruct (updateNeighbors_requests (fun p => hostname p) iri [Scenario.peerAt "20.2.2.2"]
              false eq_refl) as (_ & H).
  destruct H as (_ & _ & H); [discriminate|].
  destruct (H X []) as (E & _). exact E.
Defined.

(** *** The status API *)






(** *** The list over its life *)

(** X18: in every state a [PeerList] goes through by [add], [update],
    [markConnected], [clear] and [load], [this.peers] holds each peer once. *)
Theorem reachable_distinct (opts : Options) (resolveA : string -> option (list string))
    (s : State) :
  reachable opts resolveA s -> NoDup (all s).
Proof.
  intros H. now destruct (reachable_wellFormed opts resolveA s H).
Qed.

Lemma reachable_distinct_witness : NoDup (all Scenario.twoPeers).
Proof.
  apply (reachable_distinct DEFAULT_OPTIONS Scenario.noRecord Scenario.twoPeers).
  unfold Scenario.twoPeers. apply reach_add, reach_add, reach_new.
Defined.

(** *** [add] and the host names of the list *)




